(** * Co Writer: the page component's state handlers

    A shallow embedding of [co_writer/src/app/page.tsx]: the [Home]
    component's state, its event handlers and the part of the JavaScript
    runtime they rely on, followed by the properties the specification
    states about them. *)

From Stdlib Require Import ZArith NArith Ascii String DecimalString DecimalNat.
From stdpp Require Import base decidable option list.

Local Open Scope Z_scope.

(** ** JavaScript values *)

(** A JavaScript string is a sequence of UTF-16 code units. *)
Abbreviation jsstring := (list N).

(** An ASCII literal of the source, as code units. *)
Definition js (s : string) : jsstring :=
  (λ a, N_of_ascii a) <$> list_ascii_of_string s.

Module JS.

(** ECMAScript [WhiteSpace] and [LineTerminator] code points, the ones
    [String.prototype.trim] strips. *)
Definition isWhiteSpace (c : N) : bool :=
  ((9 <=? c) && (c <=? 13) ||
   (c =? 32) || (c =? 160) || (c =? 5760) ||
   (8192 <=? c) && (c <=? 8202) ||
   (c =? 8232) || (c =? 8233) || (c =? 8239) || (c =? 8287) ||
   (c =? 12288) || (c =? 65279))%N.

Fixpoint trimStart (s : jsstring) : jsstring :=
  match s with
  | c :: s' => if isWhiteSpace c then trimStart s' else s
  | [] => []
  end.

Definition trimEnd (s : jsstring) : jsstring :=
  reverse (trimStart (reverse s)).

Definition trim (s : jsstring) : jsstring := trimEnd (trimStart s).

(** Truthiness of a string: every string but the empty one. *)
Definition truthy (s : jsstring) : bool :=
  match s with [] => false | _ :: _ => true end.

(** [a || b] on strings that may be [undefined]. *)
Definition or_else (a : option jsstring) (b : jsstring) : jsstring :=
  match a with
  | Some s => if truthy s then s else b
  | None => b
  end.

(** [array.findIndex(p)]: the first index whose element satisfies [p],
    or [-1]. *)
Definition findIndex {A} (P : A → Prop) `{∀ x, Decision (P x)}
    (array : list A) : Z :=
  match list_find P array with
  | Some (i, _) => Z.of_nat i
  | None => -1
  end.

(** [array.splice(start, deleteCount, ...items)]: the removed elements
    and the array afterwards.  A negative [start] counts from the end;
    both arguments are clamped to the array. *)
Definition splice {A} (array : list A) (start deleteCount : Z)
    (items : list A) : list A * list A :=
  let len := Z.of_nat (length array) in
  let actualStart :=
    if start <? 0 then Z.max (len + start) 0 else Z.min start len in
  let actualDeleteCount :=
    Z.min (Z.max deleteCount 0) (len - actualStart) in
  let k := Z.to_nat actualStart in
  let d := Z.to_nat actualDeleteCount in
  (take d (drop k array), take k array ++ items ++ drop (k + d) array).

(** [String(n)] for a natural number: its decimal digits. *)
Definition String (n : nat) : jsstring :=
  js (NilEmpty.string_of_uint (Nat.to_uint n)).

End JS.

(** ** Data model *)

Module ActionButton.
Record t := mk {
  id : jsstring;
  name : jsstring;
  action : jsstring;
  emoji : jsstring
}.
End ActionButton.

(** [Partial<ActionButton>]: every property may be absent. *)
Module PartialActionButton.
Record t := mk {
  id : option jsstring;
  name : option jsstring;
  action : option jsstring;
  emoji : option jsstring
}.
End PartialActionButton.

Global Instance ActionButton_eq_dec : EqDecision ActionButton.t.
Proof. solve_decision. Defined.

Definition defaultActions : list ActionButton.t :=
  [ ActionButton.mk (js "1") (js "Expand")
      (js "Expand the text while maintaining the context") [10024%N];
    ActionButton.mk (js "2") (js "Shorten")
      (js "Make the text more concise") [9986%N; 65039%N];
    ActionButton.mk (js "3") (js "Critique")
      (js "Provide feedback on the writing") [55356%N; 57263%N] ].

(** ** Action button handlers

    Each handler is given the [actions] array of the render it was created
    in and returns the array it passes to [setActions]. *)

Definition handleAddAction (actions : list ActionButton.t)
    : list ActionButton.t :=
  let newId := JS.String (length actions + 1) in
  actions ++
  [ ActionButton.mk newId (js "New Action")
      (js "Describe what this action should do...") [55357%N; 56633%N] ].

(** [{ ...a, ...updates }] *)
Definition spread (a : ActionButton.t) (updates : PartialActionButton.t)
    : ActionButton.t :=
  ActionButton.mk
    (default (ActionButton.id a) (PartialActionButton.id updates))
    (default (ActionButton.name a) (PartialActionButton.name updates))
    (default (ActionButton.action a) (PartialActionButton.action updates))
    (default (ActionButton.emoji a) (PartialActionButton.emoji updates)).

Definition handleUpdateAction (id : jsstring)
    (updates : PartialActionButton.t) (actions : list ActionButton.t)
    : list ActionButton.t :=
  (λ a, if decide (ActionButton.id a = id) then spread a updates else a)
    <$> actions.

Definition handleDeleteAction (id : jsstring)
    (actions : list ActionButton.t) : list ActionButton.t :=
  filter (λ a, ActionButton.id a ≠ id) actions.

(** The value of a property after [{ ...a, ...updates }]: the update's
    when it has one, the old one otherwise. *)
Definition after_update {A} (old : A) (update : option A) (new : A) : Prop :=
  match update with
  | Some v => new = v
  | None => new = old
  end.

(** ** Drag and drop *)

(** Modelled from the spec: [arrayMove] is imported from the
    [@dnd-kit/sortable] package, whose source is not part of this
    repository.  The spec (4.4) has reordering change positions within the
    ordered sequence with no validation of the indices; the definition
    spells that out the way the package does it: copy the array, take the
    element at [from] out with [splice(from, 1)], and put the first removed
    element back with [splice(to, 0, item)], a negative [to] counting from
    the end of the array as it was before the removal.  When nothing was
    removed the inserted item is [undefined], here [None]. *)
Definition arrayMove {A} (array : list A) (from to : Z)
    : list (option A) :=
  let newArray := array in
  let target :=
    if to <? 0 then Z.of_nat (length newArray) + to else to in
  let '(removed, newArray) := JS.splice newArray from 1 [] in
  let item := head removed in
  snd (JS.splice (Some <$> newArray) target 0 [item]).

(** The part of a [DragEndEvent] the handler reads: [active.id] and, unless
    the item was dropped outside every target ([over] is [null]),
    [over.id].  Every identifier registered with the sortable context is an
    action's [id], a string. *)
Module DragEndEvent.
Record t := mk {
  active : jsstring;
  over : option jsstring
}.
End DragEndEvent.

(** [String(over?.id)]: the text [undefined] when [over] is [null]. *)
Definition String_id (id : option jsstring) : jsstring :=
  default (js "undefined") id.

(** The array [actions] holds after the event; an [undefined] entry is
    [None]. *)
Definition handleDragEnd (event : DragEndEvent.t)
    (items : list ActionButton.t) : list (option ActionButton.t) :=
  let active := DragEndEvent.active event in
  let over := DragEndEvent.over event in
  if decide (Some active ≠ over) then
    let oldIndex :=
      JS.findIndex (λ item, ActionButton.id item = active) items in
    let newIndex :=
      JS.findIndex (λ item, ActionButton.id item = String_id over) items in
    arrayMove items oldIndex newIndex
  else Some <$> items.

(** ** Component state *)

Inductive Tab := write | configure.

Inductive Provider := openai | llama.

Global Instance Provider_eq_dec : EqDecision Provider.
Proof. solve_decision. Defined.

(** A [Date], in milliseconds since the epoch. *)
Abbreviation Date := Z.

Module Message.
Record t := mk {
  text : jsstring;
  isUser : bool;
  timestamp : Date
}.
End Message.

Module LLMConfig.
Record t := mk {
  type : option Provider;
  apiKey : option jsstring;
  host : option jsstring;
  port : option jsstring
}.

(** [{ type: null }] *)
Definition none : t := mk None None None None.
End LLMConfig.

(** The state variables of [Home]. *)
Module Home.
Record t := mk {
  activeTab : Tab;
  isCollapsed : bool;
  actions : list ActionButton.t;
  llmConfig : LLMConfig.t;
  isConnecting : bool;
  aboutMe : jsstring;
  preferredStyle : jsstring;
  tone : jsstring;
  editorContent : jsstring;
  isProcessing : bool;
  messages : list Message.t;
  inputMessage : jsstring;
  isChatProcessing : bool
}.

(** The state at mount; [now] is the clock reading of the first render. *)
Definition initial (now : Date) : t :=
  mk write false defaultActions LLMConfig.none false
     (js "") (js "Professional") (js "Formal") (js "") false
     [ Message.mk (js "Hello! I'm Co Writer. How can I help you today?")
         false now ]
     (js "") false.
End Home.

(** The state variables of [LLMConnectionModal]. *)
Module LLMConnectionModal.
Record t := mk {
  selectedLLM : Provider;
  apiKey : jsstring;
  host : jsstring;
  port : jsstring;
  error : option jsstring
}.

Definition initial : t :=
  mk openai (js "") (js "http://localhost") (js "8080") None.
End LLMConnectionModal.

(** Everything the handlers can read or write. *)
Record Store := mkStore {
  home : Home.t;
  modal : LLMConnectionModal.t
}.

Definition withHome (f : Home.t → Home.t) (st : Store) : Store :=
  mkStore (f (home st)) (modal st).

Definition withModal (f : LLMConnectionModal.t → LLMConnectionModal.t)
    (st : Store) : Store :=
  mkStore (home st) (f (modal st)).

(** ** The backend, as the page sees it *)

(** A value caught by a [catch] clause: an [Error] object with its
    [message], or anything else. *)
Inductive Thrown :=
| ErrorObject (message : jsstring)
| OtherValue.

(** The parsed JSON body of a response, with the properties the handlers
    read: [text] (a string in every OK reply of [/api/chat] and
    [/api/submit_action]), [detail], [success] (its truthiness) and
    [message]. *)
Module Data.
Record t := mk {
  text : jsstring;
  detail : option jsstring;
  success : bool;
  message : option jsstring
}.
End Data.

(** A [Response]: its [ok] flag and what [response.json()] settles to. *)
Module Response.
Record t := mk {
  ok : bool;
  json : Thrown + Data.t
}.
End Response.

(** The object handed to [JSON.stringify] as the request body; an absent
    or [undefined] property is [None]. *)
Inductive Body :=
| ChatBody (message : jsstring) (context : option jsstring)
| SubmitActionBody
    (action action_description text about_me preferred_style tone : jsstring)
| ConnectBody (type : option Provider) (api_key host port : option jsstring).

(** ** State setters *)

Definition set_actions (v : list ActionButton.t) (h : Home.t) : Home.t :=
  Home.mk (Home.activeTab h) (Home.isCollapsed h) v (Home.llmConfig h)
    (Home.isConnecting h) (Home.aboutMe h) (Home.preferredStyle h)
    (Home.tone h) (Home.editorContent h) (Home.isProcessing h)
    (Home.messages h) (Home.inputMessage h) (Home.isChatProcessing h).

Definition set_llmConfig (v : LLMConfig.t) (h : Home.t) : Home.t :=
  Home.mk (Home.activeTab h) (Home.isCollapsed h) (Home.actions h) v
    (Home.isConnecting h) (Home.aboutMe h) (Home.preferredStyle h)
    (Home.tone h) (Home.editorContent h) (Home.isProcessing h)
    (Home.messages h) (Home.inputMessage h) (Home.isChatProcessing h).

Definition set_isConnecting (v : bool) (h : Home.t) : Home.t :=
  Home.mk (Home.activeTab h) (Home.isCollapsed h) (Home.actions h)
    (Home.llmConfig h) v (Home.aboutMe h) (Home.preferredStyle h)
    (Home.tone h) (Home.editorContent h) (Home.isProcessing h)
    (Home.messages h) (Home.inputMessage h) (Home.isChatProcessing h).

Definition set_editorContent (v : jsstring) (h : Home.t) : Home.t :=
  Home.mk (Home.activeTab h) (Home.isCollapsed h) (Home.actions h)
    (Home.llmConfig h) (Home.isConnecting h) (Home.aboutMe h)
    (Home.preferredStyle h) (Home.tone h) v (Home.isProcessing h)
    (Home.messages h) (Home.inputMessage h) (Home.isChatProcessing h).

Definition set_isProcessing (v : bool) (h : Home.t) : Home.t :=
  Home.mk (Home.activeTab h) (Home.isCollapsed h) (Home.actions h)
    (Home.llmConfig h) (Home.isConnecting h) (Home.aboutMe h)
    (Home.preferredStyle h) (Home.tone h) (Home.editorContent h) v
    (Home.messages h) (Home.inputMessage h) (Home.isChatProcessing h).

(** [setMessages(prev => f(prev))] *)
Definition update_messages (f : list Message.t → list Message.t)
    (h : Home.t) : Home.t :=
  Home.mk (Home.activeTab h) (Home.isCollapsed h) (Home.actions h)
    (Home.llmConfig h) (Home.isConnecting h) (Home.aboutMe h)
    (Home.preferredStyle h) (Home.tone h) (Home.editorContent h)
    (Home.isProcessing h) (f (Home.messages h)) (Home.inputMessage h)
    (Home.isChatProcessing h).

Definition set_inputMessage (v : jsstring) (h : Home.t) : Home.t :=
  Home.mk (Home.activeTab h) (Home.isCollapsed h) (Home.actions h)
    (Home.llmConfig h) (Home.isConnecting h) (Home.aboutMe h)
    (Home.preferredStyle h) (Home.tone h) (Home.editorContent h)
    (Home.isProcessing h) (Home.messages h) v (Home.isChatProcessing h).

Definition set_isChatProcessing (v : bool) (h : Home.t) : Home.t :=
  Home.mk (Home.activeTab h) (Home.isCollapsed h) (Home.actions h)
    (Home.llmConfig h) (Home.isConnecting h) (Home.aboutMe h)
    (Home.preferredStyle h) (Home.tone h) (Home.editorContent h)
    (Home.isProcessing h) (Home.messages h) (Home.inputMessage h) v.

Definition set_error (v : option jsstring) (m : LLMConnectionModal.t)
    : LLMConnectionModal.t :=
  LLMConnectionModal.mk (LLMConnectionModal.selectedLLM m)
    (LLMConnectionModal.apiKey m) (LLMConnectionModal.host m)
    (LLMConnectionModal.port m) v.

(** ** Handler programs

    An event handler is a tree of the effects it performs: writes to the
    store, clock readings, alerts, console output and the two promises it
    awaits.  A state setter is applied to the store at once; the handler
    itself keeps reading the state of the render that created it, which it
    receives as an argument. *)

Inductive prog (R : Type) : Type :=
| Ret (r : R)
| Throw (e : Thrown)
| Update (f : Store → Store) (k : prog R)
| NewDate (k : Date → prog R)
| Alert (message : jsstring) (k : prog R)
| ConsoleError (label : jsstring) (e : Thrown) (k : prog R)
| Fetch (url : jsstring) (body : Body) (k : Thrown + Response.t → prog R)
| Json (response : Response.t) (k : Thrown + Data.t → prog R).

Arguments Ret {R} r.
Arguments Throw {R} e.
Arguments Update {R} f k.
Arguments NewDate {R} k.
Arguments Alert {R} message k.
Arguments ConsoleError {R} label e k.
Arguments Fetch {R} url body k.
Arguments Json {R} response k.

Fixpoint bind {R S} (p : prog R) (f : R → prog S) : prog S :=
  match p with
  | Ret r => f r
  | Throw e => Throw e
  | Update g k => Update g (bind k f)
  | NewDate k => NewDate (λ d, bind (k d) f)
  | Alert m k => Alert m (bind k f)
  | ConsoleError l e k => ConsoleError l e (bind k f)
  | Fetch u b k => Fetch u b (λ r, bind (k r) f)
  | Json r k => Json r (λ d, bind (k d) f)
  end.

Global Instance prog_ret : MRet prog := λ R r, Ret r.
Global Instance prog_bind : MBind prog := λ R S f p, bind p f.

(** [try { p } catch (error) { handler error }] *)
Fixpoint try_catch {R} (p : prog R) (handler : Thrown → prog R) : prog R :=
  match p with
  | Ret r => Ret r
  | Throw e => handler e
  | Update g k => Update g (try_catch k handler)
  | NewDate k => NewDate (λ d, try_catch (k d) handler)
  | Alert m k => Alert m (try_catch k handler)
  | ConsoleError l e k => ConsoleError l e (try_catch k handler)
  | Fetch u b k => Fetch u b (λ r, try_catch (k r) handler)
  | Json r k => Json r (λ d, try_catch (k d) handler)
  end.

(** [try { p } finally { cleanup }] *)
Fixpoint try_finally {R} (p : prog R) (cleanup : prog unit) : prog R :=
  match p with
  | Ret r => bind cleanup (λ _, Ret r)
  | Throw e => bind cleanup (λ _, Throw e)
  | Update g k => Update g (try_finally k cleanup)
  | NewDate k => NewDate (λ d, try_finally (k d) cleanup)
  | Alert m k => Alert m (try_finally k cleanup)
  | ConsoleError l e k => ConsoleError l e (try_finally k cleanup)
  | Fetch u b k => Fetch u b (λ r, try_finally (k r) cleanup)
  | Json r k => Json r (λ d, try_finally (k d) cleanup)
  end.

Definition throw {R} (e : Thrown) : prog R := Throw e.
Definition update (f : Store → Store) : prog unit := Update f (Ret ()).
Definition newDate : prog Date := NewDate Ret.
Definition alert (message : jsstring) : prog unit := Alert message (Ret ()).
Definition consoleError (label : jsstring) (e : Thrown) : prog unit :=
  ConsoleError label e (Ret ()).

(** [await p]: the value a promise is fulfilled with, or its rejection
    reason thrown. *)
Definition settle {R} (r : Thrown + R) : prog R :=
  match r with
  | inl e => Throw e
  | inr v => Ret v
  end.

(** [await fetch(url, { method: 'POST', headers, body })] *)
Definition fetch (url : jsstring) (body : Body) : prog Response.t :=
  Fetch url body settle.

(** [await response.json()] *)
Definition json (response : Response.t) : prog Data.t :=
  Json response settle.

Definition setLLMConfig (v : LLMConfig.t) : prog unit :=
  update (withHome (set_llmConfig v)).
Definition setIsConnecting (v : bool) : prog unit :=
  update (withHome (set_isConnecting v)).
Definition setEditorContent (v : jsstring) : prog unit :=
  update (withHome (set_editorContent v)).
Definition setIsProcessing (v : bool) : prog unit :=
  update (withHome (set_isProcessing v)).
Definition setMessages (f : list Message.t → list Message.t) : prog unit :=
  update (withHome (update_messages f)).
Definition setInputMessage (v : jsstring) : prog unit :=
  update (withHome (set_inputMessage v)).
Definition setIsChatProcessing (v : bool) : prog unit :=
  update (withHome (set_isChatProcessing v)).
Definition setError (v : option jsstring) : prog unit :=
  update (withModal (set_error v)).

(** ** The asynchronous handlers *)

Definition fallbackText : jsstring :=
  js "I'm sorry, I encountered an error. Please try again.".

(** [error instanceof Error ? error.message : fallback] *)
Definition messageOf (error : Thrown) (fallback : jsstring) : jsstring :=
  match error with
  | ErrorObject message => message
  | OtherValue => fallback
  end.

(** [!s.trim()] *)
Definition blank (s : jsstring) : bool := negb (JS.truthy (JS.trim s)).

(** [!llmConfig.type] *)
Definition disconnected (c : LLMConfig.t) : bool :=
  negb (bool_decide (is_Some (LLMConfig.type c))).

Definition handleSendMessage (s : Home.t) : prog unit :=
  if blank (Home.inputMessage s) || disconnected (Home.llmConfig s)
     || Home.isChatProcessing s
  then mret ()
  else
    now ← newDate;
    let userMessage := Message.mk (Home.inputMessage s) true now in
    setMessages (λ prev, prev ++ [userMessage]);;
    setInputMessage (js "");;
    setIsChatProcessing true;;
    try_finally
      (try_catch
         (response ← fetch (js "http://localhost:8000/api/chat")
            (ChatBody (Home.inputMessage s)
               (if JS.truthy (Home.editorContent s)
                then Some (js "Current editor content: "
                           ++ Home.editorContent s)
                else None));
          (if negb (Response.ok response)
           then throw (ErrorObject (js "Failed to send message"))
           else mret ());;
          data ← json response;
          now ← newDate;
          setMessages (λ prev,
            prev ++ [Message.mk (Data.text data) false now]))
         (λ error,
          consoleError (js "Chat error:") error;;
          now ← newDate;
          setMessages (λ prev, prev ++ [Message.mk fallbackText false now])))
      (setIsChatProcessing false).

Definition handleLLMConnect (config : LLMConfig.t) : prog unit :=
  setIsConnecting true;;
  try_finally
    (try_catch
       (response ← fetch (js "http://localhost:8000/api/connect_llm")
          (if decide (LLMConfig.type config = Some openai)
           then ConnectBody (LLMConfig.type config)
                  (LLMConfig.apiKey config) None None
           else ConnectBody (LLMConfig.type config) None
                  (LLMConfig.host config) (LLMConfig.port config));
        data ← json response;
        if Data.success data
        then setLLMConfig config
        else throw (ErrorObject
               (JS.or_else (Data.message data)
                  (js "Failed to connect to LLM"))))
       (λ error,
        consoleError (js "Failed to connect:") error;;
        alert (messageOf error (js "Failed to connect to LLM"));;
        setLLMConfig LLMConfig.none))
    (setIsConnecting false).

Definition handleConnect (m : LLMConnectionModal.t) : prog unit :=
  let selectedLLM := LLMConnectionModal.selectedLLM m in
  let apiKey := LLMConnectionModal.apiKey m in
  let host := LLMConnectionModal.host m in
  let port := LLMConnectionModal.port m in
  setError None;;
  if bool_decide (selectedLLM = openai) && blank apiKey
  then setError (Some (js "API key is required"))
  else if bool_decide (selectedLLM = llama) && (blank host || blank port)
  then setError (Some (js "Host and port are required"))
  else
    let config :=
      if decide (selectedLLM = openai)
      then LLMConfig.mk (Some selectedLLM) (Some apiKey) None None
      else LLMConfig.mk (Some selectedLLM) None (Some host) (Some port) in
    handleLLMConnect config.

Section Runtime.

(** [String.prototype.toLowerCase], the runtime's Unicode case mapping. *)
Variable toLowerCase : jsstring → jsstring.

Definition handleActionClick (s : Home.t) (action : ActionButton.t)
    : prog unit :=
  if disconnected (Home.llmConfig s)
  then alert (js "Please connect to an LLM first")
  else if blank (Home.editorContent s)
  then alert (js "Please enter some text in the editor first")
  else
    setIsProcessing true;;
    try_finally
      (try_catch
         (response ← fetch (js "http://localhost:8000/api/submit_action")
            (SubmitActionBody
               (toLowerCase (ActionButton.name action))
               (ActionButton.action action)
               (Home.editorContent s)
               (Home.aboutMe s)
               (Home.preferredStyle s)
               (Home.tone s));
          data ← json response;
          (if negb (Response.ok response)
           then throw (ErrorObject
                  (JS.or_else (Data.detail data)
                     (js "Failed to process action")))
           else mret ());;
          setEditorContent (Data.text data))
         (λ error,
          consoleError (js "Action processing failed:") error;;
          let errorMessage :=
            messageOf error
              (js "Failed to process action. Please try again.") in
          alert errorMessage))
      (setIsProcessing false).

End Runtime.

(** ** Running a handler *)

(** What a handler does that the page's state does not record. *)
Inductive effect :=
| Alerted (message : jsstring)
| Logged (label : jsstring) (e : Thrown)
| Requested (url : jsstring) (body : Body).

(** A handler stopped at an [await]. *)
Inductive suspended :=
| OnFetch (url : jsstring) (body : Body)
    (k : Thrown + Response.t → prog unit)
| OnJson (response : Response.t) (k : Thrown + Data.t → prog unit).

Inductive outcome :=
| Returned
| Uncaught (e : Thrown)
| Awaiting (t : suspended).

(** Runs [p] up to its next [await]: the store it leaves, the effects in
    the order performed, and how it stopped.  A request is issued when
    [fetch] is called, just before the handler suspends on it.  [now] is
    the clock reading of this stretch of execution; no handler of the page
    calls [new Date()] twice between two [await]s. *)
Fixpoint run (p : prog unit) (now : Date) (st : Store)
    : Store * list effect * outcome :=
  match p with
  | Ret _ => (st, [], Returned)
  | Throw e => (st, [], Uncaught e)
  | Update f k => run k now (f st)
  | NewDate k => run (k now) now st
  | Alert m k =>
      let '(st', effects, o) := run k now st in
      (st', Alerted m :: effects, o)
  | ConsoleError l e k =>
      let '(st', effects, o) := run k now st in
      (st', Logged l e :: effects, o)
  | Fetch u b k => (st, [Requested u b], Awaiting (OnFetch u b k))
  | Json r k => (st, [], Awaiting (OnJson r k))
  end.

(** The rest of a suspended handler once its promise has settled: a fetch
    settles with what the network delivered, [response.json()] with the
    body of its response. *)
Definition resume (t : suspended) (reply : Thrown + Response.t)
    : prog unit :=
  match t with
  | OnFetch _ _ k => k reply
  | OnJson response k => k (Response.json response)
  end.

(** A handler run on from one stretch to the next with nothing else
    running in between: [reply] settles its request, [now] is the clock
    reading of the first stretch and [later] those of the following ones.
    It stops at the first [await] for which no reading is left. *)
Fixpoint complete (p : prog unit) (reply : Thrown + Response.t)
    (now : Date) (later : list Date) (st : Store)
    : Store * list effect * outcome :=
  match run p now st with
  | (st', effects, Awaiting t) =>
      match later with
      | [] => (st', effects, Awaiting t)
      | now' :: later' =>
          let '(st'', effects', o) :=
            complete (resume t reply) reply now' later' st' in
          (st'', effects ++ effects', o)
      end
  | r => r
  end.

(** ** The page as a transition system

    Handlers started by user input and handlers resumed by a settled
    promise take turns on the one store.  Each turn runs to its next
    [await]; a handler that stops there waits in [tasks].  The page is
    rendered anew after every turn, so a handler started by an input reads
    the store as the turn before left it. *)

(** The handler a waiting task belongs to. *)
Inductive origin := SendMessage | ActionClick | LLMConnect.

Global Instance origin_eq_dec : EqDecision origin.
Proof. solve_decision. Defined.

Record World := mkWorld {
  store : Store;
  tasks : list (origin * suspended);
  effects : list effect
}.

Definition initialWorld (now : Date) : World :=
  mkWorld (mkStore (Home.initial now) LLMConnectionModal.initial) [] [].

(** One turn of handler [p], started or resumed on behalf of [o]. *)
Definition turn (o : origin) (p : prog unit) (now : Date)
    (st : Store) (waiting : list (origin * suspended))
    (done : list effect) : World :=
  let '(st', effects', out) := run p now st in
  mkWorld st'
    (match out with
     | Awaiting t => waiting ++ [(o, t)]
     | _ => waiting
     end)
    (done ++ effects').

Section Page.

Variable toLowerCase : jsstring → jsstring.

(** What can happen next: the Send button or the Enter key, an action
    button, the dialog's Connect button, any handler that only calls
    state setters (given by its effect on the store), and the promise of
    the [i]-th waiting task settling. *)
Inductive input :=
| Send
| Click (action : ActionButton.t)
| Connect
| Setters (f : Store → Store)
| Settled (i : nat) (reply : Thrown + Response.t).

Definition step (w : World) (now : Date) (e : input) : World :=
  let st := store w in
  match e with
  | Send =>
      turn SendMessage (handleSendMessage (home st)) now
        st (tasks w) (effects w)
  | Click action =>
      turn ActionClick (handleActionClick toLowerCase (home st) action) now
        st (tasks w) (effects w)
  | Connect =>
      turn LLMConnect (handleConnect (modal st)) now
        st (tasks w) (effects w)
  | Setters f => mkWorld (f st) (tasks w) (effects w)
  | Settled i reply =>
      match tasks w !! i with
      | Some (o, t) =>
          turn o (resume t reply) now st (delete i (tasks w)) (effects w)
      | None => w
      end
  end.

(** No handler but [handleSendMessage] calls [setIsChatProcessing]. *)
Definition admissible (e : input) : Prop :=
  match e with
  | Setters f =>
      ∀ st, Home.isChatProcessing (home (f st))
            = Home.isChatProcessing (home st)
  | _ => True
  end.

Inductive reachable : World → Prop :=
| reachable_initial now : reachable (initialWorld now)
| reachable_step w now e :
    reachable w → admissible e → reachable (step w now e).

End Page.

(** A call of [handleSendMessage] whose request has not been answered. *)
Definition awaitsChatReply (t : origin * suspended) : bool :=
  match t with
  | (SendMessage, OnFetch _ _ _) => true
  | _ => false
  end.

(** The number of chat requests issued and not yet answered. *)
Definition chatInFlight (w : World) : nat :=
  length (filter (λ t, awaitsChatReply t = true) (tasks w)).

(** *** Who writes the chat flag

    Three shapes of handler, read off the program tree: one that never
    writes [isChatProcessing], one that has no [await] left, and one that
    leaves the flag alone until its last [await] is behind it. *)

Definition keepsFlag (f : Store → Store) : Prop :=
  ∀ st, Home.isChatProcessing (home (f st))
        = Home.isChatProcessing (home st).

Fixpoint framesFlag (p : prog unit) : Prop :=
  match p with
  | Ret _ | Throw _ => True
  | Update f k => keepsFlag f ∧ framesFlag k
  | NewDate k => ∀ d, framesFlag (k d)
  | Alert _ k | ConsoleError _ _ k => framesFlag k
  | Fetch _ _ k => ∀ r, framesFlag (k r)
  | Json _ k => ∀ r, framesFlag (k r)
  end.

Fixpoint noAwait (p : prog unit) : Prop :=
  match p with
  | Ret _ | Throw _ => True
  | Update _ k | Alert _ k | ConsoleError _ _ k => noAwait k
  | NewDate k => ∀ d, noAwait (k d)
  | Fetch _ _ _ | Json _ _ => False
  end.

Fixpoint holdsFlag (p : prog unit) : Prop :=
  match p with
  | Ret _ | Throw _ => True
  | Update f k => (keepsFlag f ∧ holdsFlag k) ∨ noAwait k
  | NewDate k => ∀ d, holdsFlag (k d)
  | Alert _ k | ConsoleError _ _ k => holdsFlag k
  | Fetch _ _ k => ∀ r, holdsFlag (k r)
  | Json _ k => ∀ r, holdsFlag (k r)
  end.

(** What a waiting task may do when resumed, by the handler it belongs
    to. *)
Definition taskKept (ot : origin * suspended) : Prop :=
  ∀ reply,
    match ot.1 with
    | SendMessage => holdsFlag (resume ot.2 reply)
    | _ => framesFlag (resume ot.2 reply)
    end.

(** The calls of [handleSendMessage] that have not returned yet. *)
Definition sendTasks (l : list (origin * suspended)) : nat :=
  length (filter (λ ot, ot.1 = SendMessage) l).

(** While a send is under way the flag is up, there is no second send, and
    every waiting task keeps to its shape. *)
Definition serialized (w : World) : Prop :=
  (sendTasks (tasks w) ≤ 1)%nat ∧
  (sendTasks (tasks w) = 1%nat →
   Home.isChatProcessing (home (store w)) = true) ∧
  Forall taskKept (tasks w).

(** A chat request that fails: the network call throws, or the response
    is not OK. *)
Definition chatFailed (reply : Thrown + Response.t) : Prop :=
  match reply with
  | inl _ => True
  | inr response => Response.ok response = false
  end.

(** The request [handleSendMessage] issues from state [s]. *)
Definition chatRequest (s : Home.t) : effect :=
  Requested (js "http://localhost:8000/api/chat")
    (ChatBody (Home.inputMessage s)
       (if JS.truthy (Home.editorContent s)
        then Some (js "Current editor content: " ++ Home.editorContent s)
        else None)).

(** A connection attempt that succeeds: the reply parses and its
    [success] property is truthy. *)
Definition connectSucceeded (reply : Thrown + Response.t) : bool :=
  match reply with
  | inr response =>
      match Response.json response with
      | inr data => Data.success data
      | inl _ => false
      end
  | inl _ => false
  end.

(** The request [handleLLMConnect] issues for [config]. *)
Definition connectRequest (config : LLMConfig.t) : effect :=
  Requested (js "http://localhost:8000/api/connect_llm")
    (if decide (LLMConfig.type config = Some openai)
     then ConnectBody (LLMConfig.type config) (LLMConfig.apiKey config)
            None None
     else ConnectBody (LLMConfig.type config) None
            (LLMConfig.host config) (LLMConfig.port config)).

(** The request [handleActionClick] issues from state [s] for [action]. *)
Definition actionRequest (toLowerCase : jsstring → jsstring)
    (s : Home.t) (action : ActionButton.t) : effect :=
  Requested (js "http://localhost:8000/api/submit_action")
    (SubmitActionBody
       (toLowerCase (ActionButton.name action))
       (ActionButton.action action)
       (Home.editorContent s)
       (Home.aboutMe s)
       (Home.preferredStyle s)
       (Home.tone s)).

(** ** Sample states *)

(** The page as mounted at time [0]. *)
Definition freshStore : Store :=
  mkStore (Home.initial 0) LLMConnectionModal.initial.

(** The page connected to OpenAI, with text in the editor and in the chat
    input. *)
Definition readyStore : Store :=
  withHome (λ h,
    set_llmConfig (LLMConfig.mk (Some openai) (Some (js "sk-test")) None None)
      (set_editorContent (js "Once upon a time")
         (set_inputMessage (js "Make it rhyme") h)))
    freshStore.

(** An update that carries a name and nothing else. *)
Definition renameOnly : PartialActionButton.t :=
  PartialActionButton.mk None (Some (js "Grow")) None None.

(** The page connected to OpenAI with nothing but spaces in the editor. *)
Definition blankStore : Store :=
  withHome (λ h,
    set_llmConfig (LLMConfig.mk (Some openai) (Some (js "sk-test")) None None)
      (set_editorContent (js "   ") h))
    freshStore.

Definition sampleAction : ActionButton.t :=
  ActionButton.mk (js "1") (js "Expand")
    (js "Expand the text while maintaining the context") [10024%N].


(** ** What the page disables and what the dialog submits *)

(** The [disabled] attribute of the Send button. *)
Definition sendButtonDisabled (s : Home.t) : bool :=
  blank (Home.inputMessage s) || Home.isChatProcessing s
  || disconnected (Home.llmConfig s).

(** The [disabled] attribute of the chat input. *)
Definition chatInputDisabled (s : Home.t) : bool :=
  Home.isChatProcessing s || disconnected (Home.llmConfig s).

(** The [disabled] attribute of every action button
    ([renderActionButtons]). *)
Definition actionButtonDisabled (s : Home.t) : bool :=
  Home.isProcessing s || disconnected (Home.llmConfig s).

(** The [disabled] attribute of the dialog's Connect button. *)
Definition connectButtonDisabled (s : Home.t) : bool := Home.isConnecting s.

(** The fields [handleConnect] requires of the dialog are filled in. *)
Definition filledIn (m : LLMConnectionModal.t) : Prop :=
  match LLMConnectionModal.selectedLLM m with
  | openai => blank (LLMConnectionModal.apiKey m) = false
  | llama =>
      blank (LLMConnectionModal.host m) = false ∧
      blank (LLMConnectionModal.port m) = false
  end.

(** The dialog with Llama selected and the default host and port. *)
Definition llamaDialog : LLMConnectionModal.t :=
  LLMConnectionModal.mk llama (js "") (js "http://localhost") (js "8080")
    None.

(** A reply that reports a successful connection. *)
Definition connectedReply : Response.t :=
  Response.mk true (inr (Data.mk (js "") None true None)).

(** A reply that refuses the connection and says why, and one that
    refuses it with an empty message. *)
Definition refusedReply : Response.t :=
  Response.mk true
    (inr (Data.mk (js "") None false (Some (js "Invalid API key")))).

Definition silentRefusal : Response.t :=
  Response.mk false (inr (Data.mk (js "") None false (Some (js "")))).

(** ** Numbering and merging *)

(** Every identifier is the decimal form of a position of the list:
    what [handleAddAction] hands out while nothing has been deleted. *)
Definition numbered (actions : list ActionButton.t) : Prop :=
  ∀ a, a ∈ actions →
    ∃ k, (1 ≤ k ≤ length actions)%nat ∧ ActionButton.id a = JS.String k.

(** [{ ...first, ...second }] on two partial updates. *)
Definition mergeUpdates (first second : PartialActionButton.t)
    : PartialActionButton.t :=
  let later {A} (x y : option A) : option A :=
    match y with Some v => Some v | None => x end in
  PartialActionButton.mk
    (later (PartialActionButton.id first) (PartialActionButton.id second))
    (later (PartialActionButton.name first) (PartialActionButton.name second))
    (later (PartialActionButton.action first)
       (PartialActionButton.action second))
    (later (PartialActionButton.emoji first)
       (PartialActionButton.emoji second)).

(** The index at which [arrayMove] inserts the element it took out of an
    array of [n] entries: [to] counted from the end of the full array when
    negative, then clamped to the array without the element. *)
Definition landing (n : nat) (to : Z) : nat :=
  let target := if to <? 0 then Z.of_nat n + to else to in
  let len := Z.of_nat (n - 1) in
  Z.to_nat (if target <? 0 then Z.max (len + target) 0 else Z.min target len).

(** ** The page under its own gating

    The inputs the rendered page lets through: an action button and the
    Connect button only fire while enabled, and no handler but the three
    asynchronous ones writes the messages or one of the three progress
    flags. *)

Definition permitted (w : World) (e : input) : Prop :=
  match e with
  | Send => True
  | Click _ => actionButtonDisabled (home (store w)) = false
  | Connect => connectButtonDisabled (home (store w)) = false
  | Setters f =>
      ∀ st,
        Home.messages (home (f st)) = Home.messages (home st) ∧
        Home.isChatProcessing (home (f st))
        = Home.isChatProcessing (home st) ∧
        Home.isProcessing (home (f st)) = Home.isProcessing (home st) ∧
        Home.isConnecting (home (f st)) = Home.isConnecting (home st)
  | Settled _ _ => True
  end.

Inductive reachableUI (toLowerCase : jsstring → jsstring) : World → Prop :=
| reachableUI_initial now : reachableUI toLowerCase (initialWorld now)
| reachableUI_step w now e :
    reachableUI toLowerCase w → permitted w e →
    reachableUI toLowerCase (step toLowerCase w now e).

(** The handler an input starts, with the handler it counts for. *)
Definition started (toLowerCase : jsstring → jsstring) (st : Store)
    (e : input) : option (origin * prog unit) :=
  match e with
  | Send => Some (SendMessage, handleSendMessage (home st))
  | Click action =>
      Some (ActionClick, handleActionClick toLowerCase (home st) action)
  | Connect => Some (LLMConnect, handleConnect (modal st))
  | Setters _ | Settled _ _ => None
  end.

(** The calls of handler [o] that have not returned yet, and those among
    them whose request is unanswered. *)
Definition tasksOf (o : origin) (l : list (origin * suspended)) : nat :=
  length (filter (λ ot, ot.1 = o) l).

Definition waiting (o : origin) (w : World) : nat := tasksOf o (tasks w).

Definition onFetch (t : suspended) : bool :=
  match t with
  | OnFetch _ _ _ => true
  | OnJson _ _ => false
  end.

Definition requestsInFlight (o : origin) (w : World) : nat :=
  length (filter (λ ot, ot.1 = o ∧ onFetch ot.2 = true) (tasks w)).

(** A handler that never changes [part] of the store. *)
Fixpoint frames {X} (part : Store → X) (p : prog unit) : Prop :=
  match p with
  | Ret _ | Throw _ => True
  | Update f k => (∀ st, part (f st) = part st) ∧ frames part k
  | NewDate k => ∀ d, frames part (k d)
  | Alert _ k | ConsoleError _ _ k => frames part k
  | Fetch _ _ k => ∀ r, frames part (k r)
  | Json _ k => ∀ r, frames part (k r)
  end.

(** A handler that leaves [part] of the store alone for as long as it has
    an [await] ahead, changes it as [closes] says in the stretch in which
    it returns, and lets no error escape. *)
Inductive bracketed {X} (part : Store → X) (closes : X → X → Prop)
    : prog unit → Prop :=
| bracketed_intro p :
    (∀ now st t,
       (run p now st).2 = Awaiting t → part (run p now st).1.1 = part st) →
    (∀ now st t reply,
       (run p now st).2 = Awaiting t →
       bracketed part closes (resume t reply)) →
    (∀ now st,
       (run p now st).2 = Returned →
       closes (part st) (part (run p now st).1.1)) →
    (∀ now st e, (run p now st).2 ≠ Uncaught e) →
    bracketed part closes p.

(** The shape the waiting tasks keep: those of [owner] bracket the part,
    the others frame it. *)
Definition bracketKept {X} (part : Store → X) (closes : X → X → Prop)
    (owner : origin) (ot : origin * suspended) : Prop :=
  ∀ reply,
    if decide (ot.1 = owner)
    then bracketed part closes (resume ot.2 reply)
    else frames part (resume ot.2 reply).

(** At most one call of [owner] is waiting; the part is [idle] when none
    is and [busy] when one is. *)
Definition bracketInv {X} (part : Store → X) (closes : X → X → Prop)
    (owner : origin) (idle busy : X → Prop) (w : World) : Prop :=
  (waiting owner w = 0%nat ∧ idle (part (store w)) ∨
   waiting owner w = 1%nat ∧ busy (part (store w))) ∧
  Forall (bracketKept part closes owner) (tasks w).

(** What starting [p] in store [st] does to the part its handler owns:
    nothing when it returns at once; when it goes on to an [await], the
    part was not busy and is busy afterwards. *)
Definition opens {X} (part : Store → X) (closes : X → X → Prop)
    (idle busy : X → Prop) (p : prog unit) (st : Store) : Prop :=
  ∀ now,
    match (run p now st).2 with
    | Awaiting t =>
        ¬ busy (part st) ∧
        (idle (part st) → busy (part (run p now st).1.1)) ∧
        ∀ reply, bracketed part closes (resume t reply)
    | _ => part (run p now st).1.1 = part st
    end.

(** The chat transcript: the greeting, then user messages and assistant
    messages in turn.  It is [answered] when it ends with an assistant
    message and [asked] when it ends with a user message. *)
Inductive answered : list Message.t → Prop :=
| answered_greeting g : Message.isUser g = false → answered [g]
| answered_reply l a :
    asked l → Message.isUser a = false → answered (l ++ [a])
with asked : list Message.t → Prop :=
| asked_message l u :
    answered l → Message.isUser u = true → asked (l ++ [u]).

(** The part of the store [handleSendMessage] owns. *)
Definition chatPart (st : Store) : list Message.t * bool :=
  (Home.messages (home st), Home.isChatProcessing (home st)).

Definition chatCloses (x x' : list Message.t * bool) : Prop :=
  x'.2 = false ∧ ∃ a, Message.isUser a = false ∧ x'.1 = x.1 ++ [a].

(** No send is waiting: the flag is down and the transcript answered. *)
Definition chatIdle (x : list Message.t * bool) : Prop :=
  x.2 = false ∧ answered x.1.

(** A send is waiting: the flag is up and the transcript ends with the
    user's message. *)
Definition chatBusy (x : list Message.t * bool) : Prop :=
  x.2 = true ∧ asked x.1.

(** A flag's last stretch lowers it. *)
Definition lowers (x x' : bool) : Prop := x' = false.

(** The page after connecting to Llama, typing into the editor and
    clicking an action button. *)
Definition busyWorld : World :=
  let w1 := step (λ s, s) (initialWorld 0) 1
              (Setters (withModal (λ _, llamaDialog))) in
  let w2 := step (λ s, s) w1 2 Connect in
  let w3 := step (λ s, s) w2 3 (Settled 0 (inr connectedReply)) in
  let w4 := step (λ s, s) w3 4 (Settled 0 (inr connectedReply)) in
  let w5 := step (λ s, s) w4 5
              (Setters (withHome (λ h,
                 set_editorContent (js "Once upon a time")
                   (set_inputMessage (js "Make it rhyme") h)))) in
  let w6 := step (λ s, s) w5 6 (Click sampleAction) in
  step (λ s, s) w6 7 Send.

(** * Properties *)

(** ** The JavaScript primitives *)

Example String_length_plus_one : JS.String (3 + 1) = js "4".
Proof. reflexivity. Qed.

Example String_two_digits : JS.String 12 = js "12".
Proof. reflexivity. Qed.

Example trim_inner_space : JS.trim (js "  a b ") = js "a b".
Proof. reflexivity. Qed.

Example splice_negative_start :
  JS.splice [1; 2; 3; 4] (-1) 1 [] = ([4], [1; 2; 3]).
Proof. reflexivity. Qed.

Example splice_past_the_end :
  JS.splice [1; 2; 3] 7 1 [9] = ([], [1; 2; 3; 9]).
Proof. reflexivity. Qed.

Lemma trimStart_nil_iff s :
  JS.trimStart s = [] ↔ forallb JS.isWhiteSpace s = true.
Proof.
  induction s as [|c s IH]; simpl; [done|].
  destruct (JS.isWhiteSpace c); simpl; [exact IH|].
  split; intros; discriminate.
Qed.

(** [!s.trim()] holds exactly of the strings made of white space only,
    the empty string among them. *)
Lemma blank_spec s : blank s = true ↔ forallb JS.isWhiteSpace s = true.
Proof.
  unfold blank, JS.trim, JS.trimEnd.
  rewrite <- trimStart_nil_iff.
  destruct (JS.trimStart s) as [|c s'] eqn:E; simpl; [done|].
  destruct (reverse _) eqn:Er.
  - (* the trimmed string starts with a character that is not white space,
       so trimming its end leaves that character *)
    exfalso.
    assert (Hc : JS.isWhiteSpace c = false).
    { clear Er. induction s as [|a s IH]; simpl in E; [discriminate|].
      destruct (JS.isWhiteSpace a) eqn:Ea; [auto|].
      by injection E as -> _. }
    assert (Hgen : ∀ l, JS.trimStart (l ++ [c]) ≠ []).
    { induction l as [|a l IH]; simpl.
      - by rewrite Hc.
      - by destruct (JS.isWhiteSpace a). }
    apply (Hgen (reverse s')).
    rewrite reverse_cons in Er.
    apply (f_equal reverse) in Er. rewrite reverse_involutive in Er.
    exact Er.
  - simpl. split; intros; discriminate.
Qed.

Lemma findIndex_range {A} (P : A → Prop) `{∀ x, Decision (P x)} (l : list A) :
  -1 ≤ JS.findIndex P l < Z.of_nat (length l).
Proof.
  unfold JS.findIndex.
  destruct (list_find P l) as [[i x]|] eqn:E.
  - apply list_find_Some in E as (Hi & _ & _).
    apply lookup_lt_Some in Hi. lia.
  - lia.
Qed.

(** ** Adding, updating and deleting actions *)

Example handleAddAction_default :
  ActionButton.id <$> handleAddAction defaultActions
  = [js "1"; js "2"; js "3"; js "4"].
Proof. reflexivity. Qed.

Lemma handleAddAction_appends actions :
  ∃ a, handleAddAction actions = actions ++ [a] ∧
       ActionButton.id a = JS.String (length actions + 1).
Proof. eexists. split; reflexivity. Qed.

Lemma handleDeleteAction_other id actions a :
  a ∈ handleDeleteAction id actions ↔ a ∈ actions ∧ ActionButton.id a ≠ id.
Proof. unfold handleDeleteAction. rewrite list_elem_of_filter. tauto. Qed.

(** While identifiers are pairwise distinct, deleting a present identifier
    takes out the one action that carries it and keeps the rest in place. *)
Lemma handleDeleteAction_unique id actions :
  NoDup (ActionButton.id <$> actions) →
  id ∈ ActionButton.id <$> actions →
  ∃ before a after,
    actions = before ++ a :: after ∧ ActionButton.id a = id ∧
    handleDeleteAction id actions = before ++ after.
Proof.
  unfold handleDeleteAction.
  induction actions as [|b actions IH]; simpl; intros Hnd Hin.
  - by apply elem_of_nil in Hin.
  - apply NoDup_cons in Hnd as [Hb Hnd].
    rewrite filter_cons. destruct (decide (ActionButton.id b ≠ id)) as [Hne|Heq].
    + apply elem_of_cons in Hin as [->|Hin]; [done|].
      destruct (IH Hnd Hin) as (before & a & after & -> & Ha & Hf).
      exists (b :: before), a, after. simpl. by rewrite Hf.
    + apply dec_stable in Heq. exists [], b, actions. simpl.
      split_and!; [done..|].
      clear IH Hin Hnd. induction actions as [|c actions IH]; [done|].
      rewrite fmap_cons in Hb. apply not_elem_of_cons in Hb as [Hc Hb].
      rewrite filter_cons. destruct (decide (ActionButton.id c ≠ id)).
      * f_equal. by apply IH.
      * exfalso. apply Hc. symmetry. rewrite Heq. by apply dec_stable.
Qed.

(** C1: adding an action gives it an identifier no listed action has, and
    deleting a listed identifier removes exactly one action.  The code
    derives the new identifier from the length of the list, so after a
    deletion it hands out an identifier that is still in use: from the
    default actions, deleting action 1 and adding one yields two actions
    with identifier 3, and deleting identifier 3 then removes both. *)
Theorem handleAddAction_reuses_id :
  let actions := handleDeleteAction (js "1") defaultActions in
  ActionButton.id <$> actions = [js "2"; js "3"] ∧
  ActionButton.id <$> handleAddAction actions = [js "2"; js "3"; js "3"] ∧
  ActionButton.id <$> handleDeleteAction (js "3") (handleAddAction actions)
  = [js "2"].
Proof. by vm_compute. Qed.

(** C10: an update of name, action text or emoji keeps the length and the
    order of the list, leaves every action with another identifier as it
    is, and in a matching action changes only the properties the update
    carries; the identifier stays. *)
Theorem handleUpdateAction_frame id updates actions :
  PartialActionButton.id updates = None →
  length (handleUpdateAction id updates actions) = length actions ∧
  ∀ i a, actions !! i = Some a →
    ∃ a', handleUpdateAction id updates actions !! i = Some a' ∧
      ActionButton.id a' = ActionButton.id a ∧
      (ActionButton.id a ≠ id → a' = a) ∧
      (ActionButton.id a = id →
        after_update (ActionButton.name a)
          (PartialActionButton.name updates) (ActionButton.name a') ∧
        after_update (ActionButton.action a)
          (PartialActionButton.action updates) (ActionButton.action a') ∧
        after_update (ActionButton.emoji a)
          (PartialActionButton.emoji updates) (ActionButton.emoji a')).
Proof.
  intros Hid. unfold handleUpdateAction. split; [apply length_fmap|].
  intros i a Hi. rewrite list_lookup_fmap, Hi. simpl.
  eexists. split; [reflexivity|].
  destruct (decide (ActionButton.id a = id)) as [Heq|Hne].
  - split_and!; [|done|intros _].
    + simpl. by rewrite Hid.
    + destruct updates as [uid [n|] [ac|] [e|]]; simpl; done.
  - split_and!; done.
Qed.

Lemma handleUpdateAction_frame_witness :
  length (handleUpdateAction (js "1") renameOnly defaultActions) = 3%nat ∧
  ActionButton.name <$> handleUpdateAction (js "1") renameOnly defaultActions
  = [js "Grow"; js "Shorten"; js "Critique"].
Proof.
  destruct (handleUpdateAction_frame (js "1") renameOnly defaultActions
              eq_refl) as [Hlen _].
  split; [exact Hlen | reflexivity].
Defined.

(** ** Reordering by drag and drop *)

Example arrayMove_forward :
  arrayMove [1; 2; 3; 4] 0 2 = Some <$> [2; 3; 1; 4].
Proof. reflexivity. Qed.

Example arrayMove_backward :
  arrayMove [1; 2; 3; 4] 3 1 = Some <$> [1; 4; 2; 3].
Proof. reflexivity. Qed.

Example arrayMove_to_end :
  arrayMove [1; 2; 3; 4] 1 (-1) = Some <$> [1; 3; 4; 2].
Proof. reflexivity. Qed.

Example arrayMove_past_the_end : arrayMove [1; 2] 5 0 = [None; Some 1; Some 2].
Proof. reflexivity. Qed.

Example handleDragEnd_first_onto_last :
  (λ item : option ActionButton.t, ActionButton.id <$> item)
    <$> handleDragEnd (DragEndEvent.mk (js "1") (Some (js "3")))
          defaultActions
  = [Some (js "2"); Some (js "3"); Some (js "1")].
Proof. reflexivity. Qed.

Example handleDragEnd_dropped_outside :
  (λ item : option ActionButton.t, ActionButton.id <$> item)
    <$> handleDragEnd (DragEndEvent.mk (js "1") None) defaultActions
  = [Some (js "2"); Some (js "3"); Some (js "1")].
Proof. reflexivity. Qed.

(** Putting an element back anywhere into the list it was taken from gives
    a permutation of the original. *)
Lemma reinsert_Permutation {A} (l : list A) (k j : nat) (x : A) :
  l !! k = Some x →
  let rest := take k l ++ drop (S k) l in
  take j rest ++ x :: drop j rest ≡ₚ l.
Proof.
  intros Hk rest.
  rewrite <- Permutation_middle, take_drop. subst rest.
  rewrite Permutation_middle.
  by rewrite <- (take_drop_middle l k x Hk) at 3.
Qed.

(** [arrayMove] with a source index inside the array, counted from either
    end, rearranges the array and inserts nothing. *)
Lemma arrayMove_Permutation {A} (array : list A) (from to : Z) :
  array ≠ [] →
  from < Z.of_nat (length array) →
  ∃ array', arrayMove array from to = Some <$> array' ∧ array' ≡ₚ array.
Proof.
  intros Hne Hfrom. unfold arrayMove, JS.splice.
  assert (0 < length array)%nat by (destruct array; simpl; [done|lia]).
  set (len := Z.of_nat (length array)).
  set (start := if from <? 0 then Z.max (len + from) 0 else Z.min from len).
  assert (Hstart : 0 ≤ start < len).
  { subst start len. destruct (Z.ltb_spec from 0); lia. }
  replace (Z.to_nat (Z.min (Z.max 1 0) (len - start))) with 1%nat by lia.
  set (k := Z.to_nat start).
  destruct (lookup_lt_is_Some_2 array k) as [x Hx]; [subst k len; lia|].
  rewrite (drop_S _ _ _ Hx). simpl.
  replace (k + 1)%nat with (S k) by lia.
  set (rest := take k array ++ drop (S k) array).
  match goal with |- context [(Z.to_nat ?z + Z.to_nat ?d)%nat] =>
    set (j := Z.to_nat z); replace (Z.to_nat d) with 0%nat by lia end.
  rewrite Nat.add_0_r.
  exists (take j rest ++ x :: drop j rest). split.
  - by rewrite fmap_app, fmap_cons, fmap_take, fmap_drop.
  - by apply reinsert_Permutation.
Qed.

(** C2: for every list of actions and every drag-end event of the page,
    whose dragged item is one of the listed actions, the handler leaves a
    rearrangement of the list: no item is added, dropped or changed.  A
    drag that ends on the dragged item itself leaves the list exactly as
    it is. *)
Theorem handleDragEnd_permutation event items :
  (DragEndEvent.active event ∈ ActionButton.id <$> items →
   ∃ items', handleDragEnd event items = Some <$> items' ∧ items' ≡ₚ items) ∧
  (DragEndEvent.over event = Some (DragEndEvent.active event) →
   handleDragEnd event items = Some <$> items).
Proof.
  unfold handleDragEnd. split.
  - intros Hlisted. case_decide.
    + apply arrayMove_Permutation; [|apply findIndex_range].
      intros ->. by apply elem_of_nil in Hlisted.
    + by exists items.
  - intros ->. by rewrite decide_False by (intros ?; done).
Qed.

Lemma handleDragEnd_permutation_witness :
  (∃ items',
     handleDragEnd (DragEndEvent.mk (js "3") (Some (js "1"))) defaultActions
     = Some <$> items' ∧ items' ≡ₚ defaultActions) ∧
  handleDragEnd (DragEndEvent.mk (js "2") (Some (js "2"))) defaultActions
  = Some <$> defaultActions.
Proof.
  split.
  - apply (handleDragEnd_permutation
             (DragEndEvent.mk (js "3") (Some (js "1"))) defaultActions).
    by apply (bool_decide_unpack _).
  - apply (handleDragEnd_permutation
             (DragEndEvent.mk (js "2") (Some (js "2"))) defaultActions).
    reflexivity.
Defined.

(** Outside the events of the page: an event that drags an identifier no
    action carries over the empty list, where nothing is rendered to
    drag.  The handler finds neither identifier and [arrayMove] inserts
    the [undefined] it took from the empty array. *)
Example handleDragEnd_unlisted_on_empty :
  handleDragEnd (DragEndEvent.mk (js "1") None) [] = [None].
Proof. reflexivity. Qed.

(** ** The guards of the handlers *)

Lemma disconnected_spec c :
  disconnected c = true ↔ LLMConfig.type c = None.
Proof.
  unfold disconnected. destruct (LLMConfig.type c); cbn; split; congruence.
Qed.

(** C3: with OpenAI selected and a blank API key, or Llama selected and a
    blank host or port, the connect handler records its validation error
    in the dialog and returns: it issues no request and leaves the state of
    the page, the stored configuration included, as it was. *)
Theorem handleConnect_rejects m now st :
  (LLMConnectionModal.selectedLLM m = openai ∧
   forallb JS.isWhiteSpace (LLMConnectionModal.apiKey m) = true) ∨
  (LLMConnectionModal.selectedLLM m = llama ∧
   (forallb JS.isWhiteSpace (LLMConnectionModal.host m) = true ∨
    forallb JS.isWhiteSpace (LLMConnectionModal.port m) = true)) →
  let message :=
    match LLMConnectionModal.selectedLLM m with
    | openai => js "API key is required"
    | llama => js "Host and port are required"
    end in
  run (handleConnect m) now st
  = (withModal (set_error (Some message)) st, [], Returned) ∧
  home (withModal (set_error (Some message)) st) = home st.
Proof.
  intros Hblank message. split; [|reflexivity].
  unfold handleConnect. subst message.
  destruct Hblank as [[-> Hkey] | [-> Hhp]].
  - apply blank_spec in Hkey. rewrite Hkey. reflexivity.
  - assert (blank (LLMConnectionModal.host m)
            || blank (LLMConnectionModal.port m) = true) as ->.
    { apply orb_true_iff. by rewrite !blank_spec. }
    reflexivity.
Qed.

Lemma handleConnect_rejects_witness :
  run (handleConnect (LLMConnectionModal.mk openai (js "  ")
                        (js "http://localhost") (js "8080") None))
    0 freshStore
  = (withModal (set_error (Some (js "API key is required"))) freshStore,
     [], Returned).
Proof.
  apply (handleConnect_rejects
           (LLMConnectionModal.mk openai (js "  ") (js "http://localhost")
              (js "8080") None) 0 freshStore).
  left. split; reflexivity.
Defined.

(** A send whose guard holds returns at once. *)
Lemma handleSendMessage_returns_early s now st :
  blank (Home.inputMessage s) || disconnected (Home.llmConfig s)
  || Home.isChatProcessing s = true →
  run (handleSendMessage s) now st = (st, [], Returned).
Proof. intros Hguard. unfold handleSendMessage. by rewrite Hguard. Qed.

(** C5: with a blank input, no model connected or a chat request still
    pending, sending is a no-op: no request goes out and the store, with
    the messages, the input and the processing flag, is untouched. *)
Theorem handleSendMessage_guard now st :
  forallb JS.isWhiteSpace (Home.inputMessage (home st)) = true ∨
  LLMConfig.type (Home.llmConfig (home st)) = None ∨
  Home.isChatProcessing (home st) = true →
  run (handleSendMessage (home st)) now st = (st, [], Returned).
Proof.
  intros Hguard. apply handleSendMessage_returns_early.
  rewrite !orb_true_iff, blank_spec, disconnected_spec. tauto.
Qed.

Lemma handleSendMessage_guard_witness :
  run (handleSendMessage (home freshStore)) 0 freshStore
  = (freshStore, [], Returned).
Proof. apply handleSendMessage_guard. left. reflexivity. Defined.

Section ActionGuards.

Variable toLowerCase : jsstring → jsstring.

(** C4: with no model connected, or with a blank editor, a click on an
    action button sends nothing and changes nothing.  It raises one alert:
    the handler tests the connection first, so the alert asks to connect a
    model whenever none is connected, also over a blank editor, and asks
    to enter text when a model is connected and the editor is blank. *)
Theorem handleActionClick_guard action now st :
  forallb JS.isWhiteSpace (Home.editorContent (home st)) = true ∨
  LLMConfig.type (Home.llmConfig (home st)) = None →
  run (handleActionClick toLowerCase (home st) action) now st
  = (st,
     [Alerted
        (match LLMConfig.type (Home.llmConfig (home st)) with
         | None => js "Please connect to an LLM first"
         | Some _ => js "Please enter some text in the editor first"
         end)],
     Returned).
Proof.
  intros Hguard. unfold handleActionClick.
  destruct (LLMConfig.type (Home.llmConfig (home st))) as [p|] eqn:Etype.
  - destruct Hguard as [Hblank|?]; [|done].
    assert (disconnected (Home.llmConfig (home st)) = false) as ->.
    { apply not_true_iff_false. rewrite disconnected_spec, Etype. done. }
    apply blank_spec in Hblank. by rewrite Hblank.
  - apply disconnected_spec in Etype. by rewrite Etype.
Qed.

End ActionGuards.

Lemma handleActionClick_guard_witness :
  run (handleActionClick (λ s, s) (home blankStore) sampleAction) 0 blankStore
  = (blankStore,
     [Alerted (js "Please enter some text in the editor first")], Returned)
  ∧
  run (handleActionClick (λ s, s) (home freshStore) sampleAction) 0 freshStore
  = (freshStore, [Alerted (js "Please connect to an LLM first")], Returned).
Proof.
  split.
  - apply (handleActionClick_guard (λ s, s) sampleAction 0 blankStore).
    left. reflexivity.
  - apply (handleActionClick_guard (λ s, s) sampleAction 0 freshStore).
    right. reflexivity.
Defined.

(** With the editor blank and no model connected, the click does not ask
    for text: its one alert asks to connect. *)
Lemma handleActionClick_blank_and_disconnected :
  forallb JS.isWhiteSpace (Home.editorContent (home freshStore)) = true ∧
  (run (handleActionClick (λ s, s) (home freshStore) sampleAction)
     0 freshStore).1.2
  = [Alerted (js "Please connect to an LLM first")] ∧
  Alerted (js "Please enter some text in the editor first")
  ∉ (run (handleActionClick (λ s, s) (home freshStore) sampleAction)
       0 freshStore).1.2.
Proof.
  split; [reflexivity|]. split; [reflexivity|].
  change (Alerted (js "Please enter some text in the editor first")
          ∉ [Alerted (js "Please connect to an LLM first")]).
  intros Hasked%list_elem_of_singleton.
  vm_compute in Hasked. discriminate Hasked.
Qed.

(** ** Chat replies *)

(** The first stretch of a send that passes the guard: the user's message
    is appended, the input cleared and the flag raised, and the handler
    waits for the reply to the request it has just issued. *)
Lemma handleSendMessage_first_stretch now st :
  blank (Home.inputMessage (home st)) = false →
  disconnected (Home.llmConfig (home st)) = false →
  Home.isChatProcessing (home st) = false →
  ∃ k,
    run (handleSendMessage (home st)) now st
    = (withHome (λ h,
         set_isChatProcessing true
           (set_inputMessage (js "")
              (update_messages
                 (λ prev, prev ++
                    [Message.mk (Home.inputMessage (home st)) true now])
                 h))) st,
       [chatRequest (home st)],
       Awaiting (OnFetch (js "http://localhost:8000/api/chat")
                   (ChatBody (Home.inputMessage (home st))
                      (if JS.truthy (Home.editorContent (home st))
                       then Some (js "Current editor content: "
                                  ++ Home.editorContent (home st))
                       else None)) k)) ∧
    (* a reply that is no OK response *)
    (∀ reply now' st',
       chatFailed reply →
       ∃ error,
         run (k reply) now' st'
         = (withHome (λ h,
              set_isChatProcessing false
                (update_messages
                   (λ prev, prev ++ [Message.mk fallbackText false now']) h))
              st',
            [Logged (js "Chat error:") error], Returned)) ∧
    (* an OK response *)
    (∀ response now' st',
       Response.ok response = true →
       ∃ k',
         run (k (inr response)) now' st'
         = (st', [], Awaiting (OnJson response k')) ∧
         ∀ now'' st'',
           match Response.json response with
           | inr data =>
               run (k' (inr data)) now'' st''
               = (withHome (λ h,
                    set_isChatProcessing false
                      (update_messages
                         (λ prev, prev ++
                            [Message.mk (Data.text data) false now'']) h))
                    st'',
                  [], Returned)
           | inl e =>
               run (k' (inl e)) now'' st''
               = (withHome (λ h,
                    set_isChatProcessing false
                      (update_messages
                         (λ prev, prev ++
                            [Message.mk fallbackText false now'']) h))
                    st'',
                  [Logged (js "Chat error:") e], Returned)
           end).
Proof.
  intros Hblank Hconn Hflag. unfold handleSendMessage.
  rewrite Hblank, Hconn, Hflag. simpl.
  eexists. split; [reflexivity|]. split.
  - intros [e|response] now' st' Hfail; simpl in Hfail.
    + by exists e.
    + cbn. rewrite Hfail. by eexists.
  - intros response now' st' Hok. cbn. rewrite Hok. simpl.
    eexists. split; [reflexivity|].
    intros now'' st''. by destruct (Response.json response).
Qed.

(** C6: when the chat request fails, by a network error or a response that
    is not OK, the handler appends exactly one assistant message, reading
    [I'm sorry, I encountered an error. Please try again.], to the
    messages it finds and clears the processing flag; run straight after
    the send, that message follows the user's own. *)
Theorem handleSendMessage_failure now now' st reply :
  blank (Home.inputMessage (home st)) = false →
  disconnected (Home.llmConfig (home st)) = false →
  Home.isChatProcessing (home st) = false →
  chatFailed reply →
  let userMessage := Message.mk (Home.inputMessage (home st)) true now in
  let apology :=
    Message.mk (js "I'm sorry, I encountered an error. Please try again.")
      false now' in
  ∃ st1 t,
    run (handleSendMessage (home st)) now st
    = (st1, [chatRequest (home st)], Awaiting t) ∧
    Home.messages (home st1) = Home.messages (home st) ++ [userMessage] ∧
    (∀ st', ∃ error final,
       run (resume t reply) now' st'
       = (final, [Logged (js "Chat error:") error], Returned) ∧
       Home.messages (home final) = Home.messages (home st') ++ [apology] ∧
       Home.isChatProcessing (home final) = false ∧
       final
       = withHome (λ h,
           set_isChatProcessing false
             (update_messages (λ prev, prev ++ [apology]) h)) st') ∧
    (∃ error final,
       complete (handleSendMessage (home st)) reply now [now'] st
       = (final, [chatRequest (home st); Logged (js "Chat error:") error],
          Returned) ∧
       Home.messages (home final)
       = Home.messages (home st) ++ [userMessage; apology] ∧
       Home.isChatProcessing (home final) = false).
Proof.
  intros Hblank Hconn Hflag Hfail userMessage apology.
  destruct (handleSendMessage_first_stretch now st Hblank Hconn Hflag)
    as (k & Hrun & Hfailed & _).
  do 2 eexists. split; [exact Hrun|]. split; [reflexivity|]. split.
  - intros st'. destruct (Hfailed reply now' st' Hfail) as [error Hk].
    exists error. eexists. split; [exact Hk|]. by split_and!.
  - simpl. rewrite Hrun.
    match goal with |- context [run (resume _ reply) now' ?s] =>
      destruct (Hfailed reply now' s Hfail) as [error Hk] end.
    simpl in *. rewrite Hk. exists error. eexists.
    split; [reflexivity|]. simpl. split; [|reflexivity].
    by rewrite <- app_assoc.
Qed.

Lemma handleSendMessage_failure_witness :
  ∃ final,
    complete (handleSendMessage (home readyStore)) (inl OtherValue)
      5 [9] readyStore
    = (final,
       [chatRequest (home readyStore);
        Logged (js "Chat error:") OtherValue], Returned) ∧
    Home.messages (home final)
    = Home.messages (home readyStore)
      ++ [Message.mk (js "Make it rhyme") true 5;
          Message.mk
            (js "I'm sorry, I encountered an error. Please try again.")
            false 9].
Proof.
  destruct (handleSendMessage_failure 5 9 readyStore (inl OtherValue)
              eq_refl eq_refl eq_refl I)
    as (st1 & t & Hrun & _ & _ & error & final & Hcomplete & Hmessages & _).
  exists final. split; [|exact Hmessages].
  rewrite Hcomplete. vm_compute in Hcomplete.
  by injection Hcomplete as _ <-.
Defined.

(** ** Connecting *)

(** C7: a connection attempt that reaches the backend ends with the stored
    configuration equal to the submitted one when the reply reports
    success, and equal to the unconnected [{ type: null }] when it reports
    failure, cannot be parsed or the request throws, whatever was stored
    before; [isConnecting] is down again either way. *)
Theorem handleLLMConnect_settles config now st :
  ∃ t,
    run (handleLLMConnect config) now st
    = (withHome (set_isConnecting true) st, [connectRequest config],
       Awaiting t) ∧
    ∀ reply now1 now2 st', ∃ final effects,
      complete (resume t reply) reply now1 [now2] st'
      = (final, effects, Returned) ∧
      Home.llmConfig (home final)
      = (if connectSucceeded reply then config
         else LLMConfig.mk None None None None) ∧
      Home.isConnecting (home final) = false ∧
      final
      = withHome (λ h,
          set_isConnecting false
            (set_llmConfig
               (if connectSucceeded reply then config else LLMConfig.none)
               h)) st'.
Proof.
  eexists. split; [reflexivity|].
  intros [e|[ok [e|[text detail [] message]]]] now1 now2 st';
    do 2 eexists; (split; [reflexivity|]); by split_and!.
Qed.

(** A reply that reports success over a page connected to OpenAI stores the
    submitted Llama configuration; a request that throws leaves it
    unconnected. *)
Example handleLLMConnect_stores :
  let config :=
    LLMConfig.mk (Some llama) None (Some (js "http://localhost"))
      (Some (js "8080")) in
  let success := Response.mk true (inr (Data.mk (js "") None true None)) in
  (Home.llmConfig
     (home (complete (handleLLMConnect config) (inr success)
              0 [1; 2] readyStore).1.1)
   = config) ∧
  (Home.llmConfig
     (home (complete (handleLLMConnect config) (inl OtherValue)
              0 [1; 2] readyStore).1.1)
   = LLMConfig.mk None None None None).
Proof. split; reflexivity. Qed.

(** ** Running an action *)

Section ActionResults.

Variable toLowerCase : jsstring → jsstring.


End ActionResults.


(** ** One chat request at a time *)

Lemma run_noAwait p now st : noAwait p → ∀ t, (run p now st).2 ≠ Awaiting t.
Proof.
  revert st. induction p as [| |f k IH|k IH|m k IH|l e k IH|? ? k IH|? k IH];
    intros st Hp t; simpl in *; try done.
  - by apply IH.
  - by apply IH.
  - specialize (IH st Hp t). by destruct (run k now st) as [[? ?] ?].
  - specialize (IH st Hp t). by destruct (run k now st) as [[? ?] ?].
Qed.

(** A handler that never writes the flag leaves it as it was, and so will
    its continuation. *)
Lemma run_framesFlag p now st :
  framesFlag p →
  Home.isChatProcessing (home (run p now st).1.1)
  = Home.isChatProcessing (home st) ∧
  ∀ t, (run p now st).2 = Awaiting t → ∀ reply, framesFlag (resume t reply).
Proof.
  revert st. induction p as [| |f k IH|k IH|m k IH|l e k IH|? ? k IH|? k IH];
    intros st Hp; simpl in *.
  - done.
  - done.
  - destruct Hp as [Hf Hk]. destruct (IH (f st) Hk) as [-> ?]. by rewrite Hf.
  - by apply IH.
  - specialize (IH st Hp). by destruct (run k now st) as [[? ?] ?].
  - specialize (IH st Hp). by destruct (run k now st) as [[? ?] ?].
  - split; [done|]. intros t [= <-] reply. apply Hp.
  - split; [done|]. intros t [= <-] reply. apply Hp.
Qed.

(** A handler that holds the flag until its last [await] leaves it as it
    was whenever it stops at an [await]. *)
Lemma run_holdsFlag p now st t :
  holdsFlag p →
  (run p now st).2 = Awaiting t →
  Home.isChatProcessing (home (run p now st).1.1)
  = Home.isChatProcessing (home st) ∧
  ∀ reply, holdsFlag (resume t reply).
Proof.
  revert st. induction p as [| |f k IH|k IH|m k IH|l e k IH|? ? k IH|? k IH];
    intros st Hp Hrun; simpl in *; try done.
  - destruct Hp as [[Hf Hk]|Hk].
    + destruct (IH (f st) Hk Hrun) as [-> ?]. by rewrite Hf.
    + by apply run_noAwait in Hrun.
  - by apply IH.
  - specialize (IH st Hp). destruct (run k now st) as [[? ?] ?]. by apply IH.
  - specialize (IH st Hp). destruct (run k now st) as [[? ?] ?]. by apply IH.
  - injection Hrun as <-. split; [done|]. intros reply. apply Hp.
  - injection Hrun as <-. split; [done|]. intros reply. apply Hp.
Qed.

Lemma handleLLMConnect_framesFlag config : framesFlag (handleLLMConnect config).
Proof.
  cbn. split; [done|].
  intros [e|response]; cbn; [done|].
  intros [e|data]; cbn; [done|].
  destruct (Data.success data); cbn; done.
Qed.

Lemma handleConnect_framesFlag m : framesFlag (handleConnect m).
Proof.
  unfold handleConnect.
  repeat case_match; try (cbn; done);
    (split; [done|]); apply handleLLMConnect_framesFlag.
Qed.

Lemma handleActionClick_framesFlag toLowerCase s action :
  framesFlag (handleActionClick toLowerCase s action).
Proof.
  unfold handleActionClick.
  repeat case_match; try (cbn; done).
  cbn. split; [done|].
  intros [e|response]; cbn; [done|].
  intros [e|data]; cbn; [done|].
  destruct (Response.ok response); cbn; done.
Qed.

(** A send either returns at its guard or, the flag being down, raises it
    and waits for the reply with a continuation that holds the flag up to
    its last [await]. *)
Lemma handleSendMessage_turn now st :
  run (handleSendMessage (home st)) now st = (st, [], Returned) ∨
  Home.isChatProcessing (home st) = false ∧
  ∃ st1 t,
    run (handleSendMessage (home st)) now st
    = (st1, [chatRequest (home st)], Awaiting t) ∧
    Home.isChatProcessing (home st1) = true ∧
    ∀ reply, holdsFlag (resume t reply).
Proof.
  unfold handleSendMessage.
  destruct (blank _ || disconnected _ || Home.isChatProcessing _) eqn:Eguard.
  - by left.
  - right. apply orb_false_iff in Eguard as [_ Hflag]. split; [done|].
    do 2 eexists. split; [reflexivity|]. split; [reflexivity|].
    intros [e|response]; cbn.
    + left. split; [done|]. by right.
    + destruct (Response.ok response); cbn.
      * intros [e|data]; cbn; (left; split; [done|]; by right).
      * left. split; [done|]. by right.
Qed.

Lemma sendTasks_app l1 l2 :
  sendTasks (l1 ++ l2) = (sendTasks l1 + sendTasks l2)%nat.
Proof. unfold sendTasks. by rewrite filter_app, length_app. Qed.

Lemma sendTasks_cons ot l :
  sendTasks (ot :: l)
  = ((if decide (ot.1 = SendMessage) then 1 else 0) + sendTasks l)%nat.
Proof.
  unfold sendTasks. rewrite filter_cons.
  by destruct (decide (ot.1 = SendMessage)).
Qed.

Lemma sendTasks_delete l i ot :
  l !! i = Some ot →
  sendTasks l
  = (sendTasks (delete i l)
     + if decide (ot.1 = SendMessage) then 1 else 0)%nat.
Proof.
  intros Hi. rewrite delete_take_drop.
  rewrite <- (take_drop_middle l i ot Hi) at 1.
  rewrite !sendTasks_app, sendTasks_cons. lia.
Qed.

Lemma chatInFlight_sendTasks w : (chatInFlight w ≤ sendTasks (tasks w))%nat.
Proof.
  unfold chatInFlight, sendTasks.
  induction (tasks w) as [|[o t] l IH]; [done|].
  rewrite !filter_cons. simpl.
  destruct o, t; simpl; repeat case_decide; simpl; try done; lia.
Qed.

(** A turn of a handler that never writes the flag. *)
Lemma turn_framesFlag o p now st waiting done :
  o ≠ SendMessage →
  framesFlag p →
  Forall taskKept waiting →
  let w' := turn o p now st waiting done in
  Home.isChatProcessing (home (store w')) = Home.isChatProcessing (home st) ∧
  sendTasks (tasks w') = sendTasks waiting ∧
  Forall taskKept (tasks w').
Proof.
  intros Ho Hp Hwaiting. unfold turn.
  destruct (run_framesFlag p now st Hp) as [Hflag Hnext].
  destruct (run p now st) as [[st' effects'] out]. simpl in *.
  split; [done|].
  destruct out as [| |t]; [done..|]. split.
  - rewrite sendTasks_app. unfold sendTasks at 2. rewrite filter_cons.
    simpl. rewrite decide_False by done. simpl. lia.
  - apply Forall_app. split; [done|]. apply Forall_singleton.
    intros reply. simpl. destruct o; [done|by apply Hnext..].
Qed.

(** A turn of a resumed send. *)
Lemma turn_holdsFlag p now st waiting done :
  holdsFlag p →
  Forall taskKept waiting →
  let w' := turn SendMessage p now st waiting done in
  (sendTasks (tasks w') ≤ sendTasks waiting + 1)%nat ∧
  (sendTasks (tasks w') = (sendTasks waiting + 1)%nat →
   Home.isChatProcessing (home (store w'))
   = Home.isChatProcessing (home st)) ∧
  (tasks w' = waiting ∨ sendTasks (tasks w') = (sendTasks waiting + 1)%nat) ∧
  Forall taskKept (tasks w').
Proof.
  intros Hp Hwaiting. unfold turn.
  pose proof (run_holdsFlag p now st) as Hrun.
  destruct (run p now st) as [[st' effects'] out]. simpl in *.
  destruct out as [| |t]; simpl.
  1,2: split_and!; [lia|lia|by left|done].
  destruct (Hrun t Hp eq_refl) as [Hflag Hnext].
  assert (sendTasks (waiting ++ [(SendMessage, t)])
          = (sendTasks waiting + 1)%nat) as ->.
  { rewrite sendTasks_app. reflexivity. }
  split_and!; [lia|done|by right|].
  apply Forall_app. split; [done|]. by apply Forall_singleton.
Qed.

Section Serialization.

Variable toLowerCase : jsstring → jsstring.

Lemma serialized_initial now : serialized (initialWorld now).
Proof. split_and!; [cbv; lia|by cbv|constructor]. Qed.

Lemma serialized_step w now e :
  serialized w → admissible e → serialized (step toLowerCase w now e).
Proof.
  intros (Hone & Hflag & Hkept) Hadm.
  destruct e as [|action| |f|i reply]; simpl.
  - (* Send *)
    unfold turn.
    destruct (handleSendMessage_turn now (store w))
      as [-> | (Hdown & st1 & t & -> & Hup & Hnext)].
    + done.
    + assert (sendTasks (tasks w) = 0%nat) as Hnone.
      { destruct (sendTasks (tasks w)) as [|[|n]] eqn:En; [done| |lia].
        rewrite Hflag in Hdown; done. }
      unfold serialized. simpl. rewrite sendTasks_app, Hnone.
      split_and!; [done|done|].
      apply Forall_app. split; [done|]. by apply Forall_singleton.
  - (* Click *)
    destruct (turn_framesFlag ActionClick
                (handleActionClick toLowerCase (home (store w)) action)
                now (store w) (tasks w) (effects w))
      as (Hf & Hn & Hk);
      [done|apply handleActionClick_framesFlag|done|].
    unfold serialized. by rewrite Hf, Hn.
  - (* Connect *)
    destruct (turn_framesFlag LLMConnect (handleConnect (modal (store w)))
                now (store w) (tasks w) (effects w))
      as (Hf & Hn & Hk);
      [done|apply handleConnect_framesFlag|done|].
    unfold serialized. by rewrite Hf, Hn.
  - (* Setters *)
    unfold serialized. simpl. by rewrite Hadm.
  - (* Settled *)
    destruct (tasks w !! i) as [[o t]|] eqn:Hi; [|done].
    pose proof (sendTasks_delete _ _ _ Hi) as Hcount. simpl in Hcount.
    pose proof (Forall_lookup_1 _ _ _ _ Hkept Hi reply) as Hshape.
    simpl in Hshape.
    assert (Forall taskKept (delete i (tasks w))) as Hrest.
    { by apply Forall_delete. }
    destruct (decide (o = SendMessage)) as [->|Ho].
    + destruct (turn_holdsFlag (resume t reply) now (store w)
                  (delete i (tasks w)) (effects w) Hshape Hrest)
        as (Hle & Hsame & Hcases & Hk).
      unfold serialized. split_and!; [lia| |done].
      intros Hnow. rewrite Hsame by lia. apply Hflag. lia.
    + destruct (turn_framesFlag o (resume t reply) now (store w)
                  (delete i (tasks w)) (effects w))
        as (Hf & Hn & Hk); [done| |done|].
      { by destruct o. }
      unfold serialized. rewrite Hf, Hn. split_and!; [lia| |done].
      intros ?. apply Hflag. lia.
Qed.

Lemma reachable_serialized w : reachable toLowerCase w → serialized w.
Proof.
  induction 1 as [now|w now e _ IH Hadm].
  - apply serialized_initial.
  - by apply serialized_step.
Qed.

(** C9: a send that passes the guard appends the user's message, carrying
    the input text, and raises the processing flag in the stretch that
    issues the request; a send made while the flag is up returns without
    effect; and however sends, clicks, connection attempts, other state
    updates and replies interleave, at most one chat request is awaiting
    its reply. *)
Theorem handleSendMessage_serialized now st :
  blank (Home.inputMessage (home st)) = false →
  disconnected (Home.llmConfig (home st)) = false →
  Home.isChatProcessing (home st) = false →
  (∃ st1 t,
     run (handleSendMessage (home st)) now st
     = (st1, [chatRequest (home st)], Awaiting t) ∧
     Home.messages (home st1)
     = Home.messages (home st)
       ++ [Message.mk (Home.inputMessage (home st)) true now] ∧
     Home.isChatProcessing (home st1) = true ∧
     ∀ now', run (handleSendMessage (home st1)) now' st1
             = (st1, [], Returned)) ∧
  (∀ now' st',
     Home.isChatProcessing (home st') = true →
     run (handleSendMessage (home st')) now' st' = (st', [], Returned)) ∧
  (∀ w, reachable toLowerCase w → (chatInFlight w ≤ 1)%nat).
Proof.
  intros Hblank Hconn Hflag. split_and!.
  - destruct (handleSendMessage_first_stretch now st Hblank Hconn Hflag)
      as (k & Hrun & _).
    do 2 eexists. split; [exact Hrun|]. split_and!; [done..|].
    intros now'. apply handleSendMessage_returns_early.
    apply orb_true_iff. by right.
  - intros now' st' Hup. apply handleSendMessage_returns_early.
    apply orb_true_iff. by right.
  - intros w Hw. apply reachable_serialized in Hw as [Hone _].
    pose proof (chatInFlight_sendTasks w). lia.
Qed.

End Serialization.

Lemma handleSendMessage_serialized_witness :
  ∃ st1 t,
    run (handleSendMessage (home readyStore)) 5 readyStore
    = (st1, [chatRequest (home readyStore)], Awaiting t) ∧
    Home.messages (home st1)
    = Home.messages (home readyStore)
      ++ [Message.mk (js "Make it rhyme") true 5] ∧
    Home.isChatProcessing (home st1) = true.
Proof.
  destruct (handleSendMessage_serialized (λ s, s) 5 readyStore
              eq_refl eq_refl eq_refl)
    as ((st1 & t & Hrun & Hmessages & Hflag & _) & _).
  by exists st1, t.
Defined.

(** A run of the page: connect, type, send twice, receive the reply. *)
Example two_sends_one_request :
  let connected :=
    withHome (λ h,
      set_llmConfig (LLMConfig.mk (Some openai) (Some (js "sk")) None None)
        (set_inputMessage (js "Hi") h)) in
  let w1 := step (λ s, s) (initialWorld 0) 1 (Setters connected) in
  let w2 := step (λ s, s) w1 2 Send in
  let w3 := step (λ s, s) w2 3 (Setters (withHome (set_inputMessage (js "Again")))) in
  let w4 := step (λ s, s) w3 4 Send in
  let w5 := step (λ s, s) w4 5 (Settled 0 (inl OtherValue)) in
  chatInFlight w2 = 1%nat ∧ chatInFlight w4 = 1%nat ∧
  chatInFlight w5 = 0%nat ∧
  Message.text <$> Home.messages (home (store w5))
  = [js "Hello! I'm Co Writer. How can I help you today?"; js "Hi";
     fallbackText] ∧
  Home.isChatProcessing (home (store w5)) = false.
Proof. by vm_compute. Qed.

(** * Further properties of the handlers *)

Arguments js : simpl never.

(** ** Sending and its button *)

Lemma complete_unfold p reply now later st :
  complete p reply now later st
  = match run p now st with
    | (st', effects, Awaiting t) =>
        match later with
        | [] => (st', effects, Awaiting t)
        | now' :: later' =>
            let '(st'', effects', o) :=
              complete (resume t reply) reply now' later' st' in
            (st'', effects ++ effects', o)
        end
    | r => r
    end.
Proof. by destruct later. Qed.



(** X2: whatever the reply, a send that passes the guard is over after at
    most two awaits: it has returned, the flag is down again, the input is
    empty, and the messages have grown by the user's message followed by
    exactly one assistant message. *)
Theorem handleSendMessage_always_answers now now1 now2 st reply :
  blank (Home.inputMessage (home st)) = false →
  disconnected (Home.llmConfig (home st)) = false →
  Home.isChatProcessing (home st) = false →
  ∃ final effects answer,
    complete (handleSendMessage (home st)) reply now [now1; now2] st
    = (final, effects, Returned) ∧
    Home.messages (home final)
    = Home.messages (home st)
      ++ [Message.mk (Home.inputMessage (home st)) true now; answer] ∧
    Message.isUser answer = false ∧
    Home.isChatProcessing (home final) = false ∧
    Home.inputMessage (home final) = js "".
Proof.
  intros Hblank Hconn Hflag.
  destruct (handleSendMessage_first_stretch now st Hblank Hconn Hflag)
    as (k & Hrun & Hfailed & Hreply).
  rewrite complete_unfold, Hrun. cbn [resume].
  assert (chatFailed reply ∨
          ∃ response, reply = inr response ∧ Response.ok response = true)
    as [Hfail|(response & -> & Hok)].
  { destruct reply as [e|response]; [by left|]. simpl.
    destruct (Response.ok response) eqn:Hok; [right; eauto|by left]. }
  - match goal with |- context [complete (k reply) reply now1 _ ?s] =>
      destruct (Hfailed reply now1 s Hfail) as [error Hrun1] end.
    rewrite complete_unfold, Hrun1.
    do 3 eexists. split; [reflexivity|].
    unfold withHome, update_messages, set_isChatProcessing, set_inputMessage.
    simpl. rewrite <- app_assoc. by split_and!.
  - match goal with
    |- context [complete (k (inr response)) _ now1 _ ?s] =>
      destruct (Hreply response now1 s Hok) as (k' & Hrun1 & Hrun2) end.
    rewrite complete_unfold, Hrun1. cbn [resume].
    rewrite complete_unfold.
    match goal with |- context [run _ now2 ?s] =>
      specialize (Hrun2 now2 s) end.
    destruct (Response.json response) as [e|data]; rewrite Hrun2;
      do 3 eexists; (split; [reflexivity|]);
      unfold withHome, update_messages, set_isChatProcessing,
        set_inputMessage; simpl; rewrite <- app_assoc; by split_and!.
Qed.

Lemma handleSendMessage_always_answers_witness :
  ∃ final effects,
    complete (handleSendMessage (home readyStore))
      (inr (Response.mk false (inl OtherValue))) 5 [6; 7] readyStore
    = (final, effects, Returned) ∧
    Home.isChatProcessing (home final) = false.
Proof.
  destruct (handleSendMessage_always_answers 5 6 7 readyStore
              (inr (Response.mk false (inl OtherValue)))
              eq_refl eq_refl eq_refl)
    as (final & effects & answer & Hrun & _ & _ & Hflag & _).
  by exists final, effects.
Defined.

(** X3: the Send button is enabled exactly in the states in which a send
    goes through to the request; in every state in which it is disabled,
    the handler returns at its guard and does nothing. *)
Theorem sendButton_matches_guard now st :
  (sendButtonDisabled (home st) = false ↔
   ∃ st' t, run (handleSendMessage (home st)) now st
            = (st', [chatRequest (home st)], Awaiting t)) ∧
  (sendButtonDisabled (home st) = true ↔
   run (handleSendMessage (home st)) now st = (st, [], Returned)).
Proof.
  unfold sendButtonDisabled.
  destruct (handleSendMessage_turn now st)
    as [Hret | (Hdown & st1 & t & Hrun & _)].
  - assert (blank (Home.inputMessage (home st))
            || Home.isChatProcessing (home st)
            || disconnected (Home.llmConfig (home st)) = true) as ->.
    { unfold handleSendMessage in Hret.
      destruct (blank _), (Home.isChatProcessing _), (disconnected _);
        try done; discriminate Hret. }
    rewrite Hret. split; split; try done.
    intros (? & ? & [=]).
  - assert (blank (Home.inputMessage (home st))
            || Home.isChatProcessing (home st)
            || disconnected (Home.llmConfig (home st)) = false) as ->.
    { unfold handleSendMessage in Hrun.
      destruct (blank _), (Home.isChatProcessing _), (disconnected _);
        try done; discriminate Hrun. }
    rewrite Hrun. split; split; try done.
    intros _. eauto.
Qed.

Lemma sendButton_matches_guard_witness :
  ∃ st' t,
    run (handleSendMessage (home readyStore)) 5 readyStore
    = (st', [chatRequest (home readyStore)], Awaiting t).
Proof.
  apply (proj1 (sendButton_matches_guard 5 readyStore)). reflexivity.
Defined.

(** ** The connection dialog *)

(** X4: with the selected provider's fields filled in, the connect handler
    raises [isConnecting], leaves the stored configuration alone for the
    time being, and issues one request that names the provider and carries
    its fields only, exactly as typed: the API key for OpenAI, host and
    port for Llama.  When the reply reports success, the configuration the
    page then holds is the selected provider with those same fields and no
    others, and [isConnecting] is down again. *)
Theorem handleConnect_accepts m now st :
  filledIn m →
  ∃ st1 t,
    run (handleConnect m) now st
    = (st1,
       [Requested (js "http://localhost:8000/api/connect_llm")
          (match LLMConnectionModal.selectedLLM m with
           | openai =>
               ConnectBody (Some openai)
                 (Some (LLMConnectionModal.apiKey m)) None None
           | llama =>
               ConnectBody (Some llama) None
                 (Some (LLMConnectionModal.host m))
                 (Some (LLMConnectionModal.port m))
           end)],
       Awaiting t) ∧
    Home.isConnecting (home st1) = true ∧
    Home.llmConfig (home st1) = Home.llmConfig (home st) ∧
    ∀ reply now1 now2 st',
      connectSucceeded reply = true →
      ∃ final effects,
        complete (resume t reply) reply now1 [now2] st'
        = (final, effects, Returned) ∧
        Home.llmConfig (home final)
        = match LLMConnectionModal.selectedLLM m with
          | openai =>
              LLMConfig.mk (Some openai)
                (Some (LLMConnectionModal.apiKey m)) None None
          | llama =>
              LLMConfig.mk (Some llama) None
                (Some (LLMConnectionModal.host m))
                (Some (LLMConnectionModal.port m))
          end ∧
        Home.isConnecting (home final) = false.
Proof.
  unfold filledIn, handleConnect. intros Hfilled.
  destruct (LLMConnectionModal.selectedLLM m).
  - rewrite Hfilled. simpl.
    do 2 eexists. split; [reflexivity|]. split_and!; [done..|].
    intros [e|[ok [e|[text detail [] message]]]] now1 now2 st' Hok;
      try discriminate Hok.
    do 2 eexists. split; [reflexivity|]. by split.
  - destruct Hfilled as [-> ->]. simpl.
    do 2 eexists. split; [reflexivity|]. split_and!; [done..|].
    intros [e|[ok [e|[text detail [] message]]]] now1 now2 st' Hok;
      try discriminate Hok.
    do 2 eexists. split; [reflexivity|]. by split.
Qed.

Lemma handleConnect_accepts_witness :
  ∃ st1 t,
    run (handleConnect llamaDialog) 0 freshStore
    = (st1,
       [Requested (js "http://localhost:8000/api/connect_llm")
          (ConnectBody (Some llama) None (Some (js "http://localhost"))
             (Some (js "8080")))],
       Awaiting t) ∧
    Home.llmConfig
      (home (complete (resume t (inr connectedReply)) (inr connectedReply)
               1 [2] st1).1.1)
    = LLMConfig.mk (Some llama) None (Some (js "http://localhost"))
        (Some (js "8080")).
Proof.
  destruct (handleConnect_accepts llamaDialog 0 freshStore)
    as (st1 & t & Hrun & _ & _ & Hok).
  { split; reflexivity. }
  exists st1, t. split; [exact Hrun|].
  destruct (Hok (inr connectedReply) 1 2 st1 eq_refl)
    as (final & effects & -> & Hconfig & _).
  exact Hconfig.
Defined.

(** X5: a connection attempt that succeeds is silent.  One that fails logs
    the error and raises exactly one alert: the reply's [message] when
    that is a non-empty string, the thrown error's message when the
    request or the parsing of the body threw an [Error], and the text
    [Failed to connect to LLM] in every other case. *)
Theorem handleLLMConnect_alerts config now st :
  ∃ t,
    (run (handleLLMConnect config) now st).2 = Awaiting t ∧
    ∀ reply now1 now2 st',
      let thrown (e : Thrown) :=
        [Logged (js "Failed to connect:") e;
         Alerted (match e with
                  | ErrorObject message => message
                  | OtherValue => js "Failed to connect to LLM"
                  end)] in
      (complete (resume t reply) reply now1 [now2] st').1.2
      = match reply with
        | inl e => thrown e
        | inr response =>
            match Response.json response with
            | inl e => thrown e
            | inr data =>
                if Data.success data then []
                else
                  let message :=
                    match Data.message data with
                    | Some (c :: rest) => c :: rest
                    | Some [] | None => js "Failed to connect to LLM"
                    end in
                  [Logged (js "Failed to connect:") (ErrorObject message);
                   Alerted message]
            end
        end.
Proof.
  eexists. split; [reflexivity|].
  intros [e|[ok [e|[text detail [] [[|c rest]|]]]]] now1 now2 st';
    try reflexivity; by destruct e.
Qed.

Lemma handleLLMConnect_alerts_witness :
  ∃ t,
    (run (handleLLMConnect LLMConfig.none) 0 freshStore).2 = Awaiting t ∧
    (complete (resume t (inr refusedReply)) (inr refusedReply)
       1 [2] freshStore).1.2
    = [Logged (js "Failed to connect:") (ErrorObject (js "Invalid API key"));
       Alerted (js "Invalid API key")] ∧
    (complete (resume t (inr silentRefusal)) (inr silentRefusal)
       1 [2] freshStore).1.2
    = [Logged (js "Failed to connect:")
         (ErrorObject (js "Failed to connect to LLM"));
       Alerted (js "Failed to connect to LLM")].
Proof.
  destruct (handleLLMConnect_alerts LLMConfig.none 0 freshStore)
    as (t & Hrun & Halerts).
  exists t. split; [exact Hrun|]. split.
  - exact (Halerts (inr refusedReply) 1 2 freshStore).
  - exact (Halerts (inr silentRefusal) 1 2 freshStore).
Defined.

(** ** The list of actions *)

Lemma js_inj s1 s2 : js s1 = js s2 → s1 = s2.
Proof.
  unfold js. intros H.
  rewrite <- (string_of_list_ascii_of_string s1),
          <- (string_of_list_ascii_of_string s2).
  f_equal. revert H. generalize (list_ascii_of_string s1) as l1.
  generalize (list_ascii_of_string s2) as l2.
  intros l2 l1. revert l2.
  induction l1 as [|a l1 IH]; intros [|b l2] H; simpl in H;
    try done; try discriminate.
  injection H as Hab H. f_equal; [|by apply IH].
  rewrite <- (ascii_N_embedding a), <- (ascii_N_embedding b).
  by rewrite Hab.
Qed.

(** Distinct numbers print differently. *)
Lemma String_inj n m : JS.String n = JS.String m → n = m.
Proof.
  unfold JS.String. intros H%js_inj.
  assert (Nat.to_uint n = Nat.to_uint m) as Hu.
  { apply (f_equal NilEmpty.uint_of_string) in H.
    rewrite !NilEmpty.usu in H. by injection H. }
  apply (f_equal Nat.of_uint) in Hu.
  by rewrite !DecimalNat.Unsigned.of_to in Hu.
Qed.

(** X6: on a list whose identifiers are pairwise distinct, deleting an
    identifier that is present takes out the one action that carries it
    and keeps every other action, in the order they had. *)
Theorem handleDeleteAction_removes_one id actions :
  NoDup (ActionButton.id <$> actions) →
  id ∈ ActionButton.id <$> actions →
  ∃ before a after,
    actions = before ++ a :: after ∧ ActionButton.id a = id ∧
    handleDeleteAction id actions = before ++ after ∧
    length (handleDeleteAction id actions) = (length actions - 1)%nat.
Proof.
  intros Hnd Hin.
  destruct (handleDeleteAction_unique id actions Hnd Hin)
    as (before & a & after & Heq & Ha & Hdel).
  exists before, a, after. split_and!; [done..|].
  rewrite Hdel, Heq, !length_app. simpl. lia.
Qed.

Lemma handleDeleteAction_removes_one_witness :
  length (handleDeleteAction (js "2") defaultActions) = 2%nat.
Proof.
  destruct (handleDeleteAction_removes_one (js "2") defaultActions)
    as (before & a & after & _ & _ & _ & Hlen).
  - by apply (bool_decide_unpack _).
  - by apply (bool_decide_unpack _).
  - exact Hlen.
Defined.

(** X7: an identifier that no action carries selects nothing: deleting it
    and updating it both leave the list exactly as it is. *)
Theorem stale_id_no_effect id updates actions :
  id ∉ ActionButton.id <$> actions →
  handleDeleteAction id actions = actions ∧
  handleUpdateAction id updates actions = actions.
Proof.
  unfold handleDeleteAction, handleUpdateAction.
  induction actions as [|a actions IH]; [done|].
  rewrite fmap_cons. intros [Ha Hrest]%not_elem_of_cons.
  destruct (IH Hrest) as [Hdel Hupd]. split.
  - rewrite filter_cons, decide_True by done. by rewrite Hdel.
  - simpl. rewrite decide_False by done. f_equal. exact Hupd.
Qed.

Lemma stale_id_no_effect_witness :
  handleDeleteAction (js "7") defaultActions = defaultActions ∧
  handleUpdateAction (js "7") renameOnly defaultActions = defaultActions.
Proof.
  apply stale_id_no_effect. by apply (bool_decide_unpack _).
Defined.

(** X8: while every identifier is the number of a position of the list
    and no two are equal, as in the default list, adding an action keeps it
    so: the new identifier is unused.  Identifiers are therefore distinct
    as long as actions are only added. *)
Theorem handleAddAction_numbered actions :
  numbered actions →
  NoDup (ActionButton.id <$> actions) →
  numbered (handleAddAction actions) ∧
  NoDup (ActionButton.id <$> handleAddAction actions).
Proof.
  intros Hnum Hnd. unfold handleAddAction. split.
  - intros a [Ha| ->%list_elem_of_singleton]%elem_of_app.
    + destruct (Hnum a Ha) as (k & Hk & Hid).
      exists k. rewrite length_app. simpl. split; [lia|done].
    + exists (length actions + 1)%nat. rewrite length_app. simpl.
      split; [lia|done].
  - rewrite fmap_app. simpl. apply NoDup_app. split_and!; [done| |].
    + intros id Hid ->%list_elem_of_singleton.
      apply list_elem_of_fmap in Hid as (a & Hida & Ha).
      destruct (Hnum a Ha) as (k & Hk & Hidk).
      rewrite Hidk in Hida. apply String_inj in Hida. lia.
    + apply NoDup_singleton.
Qed.

Lemma defaultActions_numbered :
  numbered defaultActions ∧ NoDup (ActionButton.id <$> defaultActions).
Proof.
  split.
  - intros a Ha. unfold defaultActions in Ha.
    rewrite !elem_of_cons, elem_of_nil in Ha.
    destruct Ha as [->|[->|[->|[]]]];
      [exists 1%nat|exists 2%nat|exists 3%nat]; simpl; (split; [lia|done]).
  - by apply (bool_decide_unpack _).
Qed.

Lemma handleAddAction_numbered_witness :
  NoDup (ActionButton.id <$> handleAddAction (handleAddAction defaultActions)).
Proof.
  destruct defaultActions_numbered as [Hnum Hnd].
  destruct (handleAddAction_numbered _ Hnum Hnd) as [Hnum1 Hnd1].
  exact (proj2 (handleAddAction_numbered _ Hnum1 Hnd1)).
Defined.

(** X9: two updates of the same action, the first of which leaves the
    identifier alone, amount to the one update that carries the
    properties of both, the later one winning where both set a
    property. *)
Theorem handleUpdateAction_twice id first second actions :
  PartialActionButton.id first = None →
  handleUpdateAction id second (handleUpdateAction id first actions)
  = handleUpdateAction id (mergeUpdates first second) actions.
Proof.
  intros Hid. unfold handleUpdateAction.
  rewrite <- list_fmap_compose. apply list_fmap_ext.
  intros i a _. simpl.
  destruct (decide (ActionButton.id a = id)) as [Ha|Ha].
  - rewrite decide_True by (simpl; by rewrite Hid).
    destruct first as [i1 n1 a1 e1], second as [i2 n2 a2 e2].
    simpl in Hid. subst i1. unfold spread, mergeUpdates. simpl.
    by destruct i2, n2, a2, e2, n1, a1, e1.
  - by rewrite decide_False.
Qed.

Lemma handleUpdateAction_twice_witness :
  ActionButton.name
    <$> handleUpdateAction (js "1")
          (PartialActionButton.mk None (Some (js "Widen")) None None)
          (handleUpdateAction (js "1") renameOnly defaultActions)
  = [js "Widen"; js "Shorten"; js "Critique"].
Proof.
  rewrite (handleUpdateAction_twice (js "1") renameOnly _ defaultActions
             eq_refl).
  reflexivity.
Defined.

(** ** Where a dragged action lands *)

Lemma findIndex_NoDup {A B} `{EqDecision B} (f : A → B) (l : list A) i a :
  NoDup (f <$> l) → l !! i = Some a →
  JS.findIndex (λ x, f x = f a) l = Z.of_nat i.
Proof.
  intros Hnd Hi. unfold JS.findIndex.
  assert (list_find (λ x, f x = f a) l = Some (i, a)) as ->; [|done].
  apply list_find_Some. split_and!; [done..|].
  intros j y Hj Hlt Hy.
  assert (j = i); [|lia].
  eapply (NoDup_lookup (f <$> l)); [done| |].
  - rewrite list_lookup_fmap, Hj. simpl. by rewrite Hy.
  - by rewrite list_lookup_fmap, Hi.
Qed.

Lemma findIndex_absent {A} (P : A → Prop) `{∀ x, Decision (P x)} (l : list A) :
  Forall (λ x, ¬ P x) l → JS.findIndex P l = -1.
Proof.
  intros Hl. unfold JS.findIndex.
  by rewrite (proj2 (list_find_None P l) Hl).
Qed.

(** [arrayMove] from an index of the array: the element is taken out and
    put back at the landing index. *)
Lemma arrayMove_from_index {A} (l : list A) (i : nat) (x : A) (to : Z) :
  l !! i = Some x →
  arrayMove l (Z.of_nat i) to
  = Some <$> (take (landing (length l) to) (delete i l)
              ++ x :: drop (landing (length l) to) (delete i l)).
Proof.
  intros Hi. pose proof (lookup_lt_Some _ _ _ Hi) as Hlt.
  unfold arrayMove, JS.splice, landing.
  rewrite (proj2 (Z.ltb_ge (Z.of_nat i) 0)) by lia.
  replace (Z.to_nat (Z.min (Z.of_nat i) (Z.of_nat (length l)))) with i by lia.
  replace (Z.to_nat
             (Z.min (Z.max 1 0)
                (Z.of_nat (length l)
                 - Z.min (Z.of_nat i) (Z.of_nat (length l)))))
    with 1%nat by lia.
  rewrite (drop_S _ _ _ Hi). simpl.
  replace (i + 1)%nat with (S i) by lia.
  rewrite <- delete_take_drop.
  assert (length (delete i l) = (length l - 1)%nat) as Hlen.
  { rewrite length_delete; [lia|eauto]. }
  rewrite length_fmap, Hlen.
  replace (Z.to_nat
             (Z.min (Z.max 0 0)
                (Z.of_nat (length l - 1)
                 - (if (if to <? 0 then Z.of_nat (length l) + to else to) <? 0
                    then Z.max (Z.of_nat (length l - 1)
                                + (if to <? 0 then Z.of_nat (length l) + to
                                   else to)) 0
                    else Z.min (if to <? 0 then Z.of_nat (length l) + to
                                else to) (Z.of_nat (length l - 1))))))
    with 0%nat by lia.
  rewrite Nat.add_0_r.
  by rewrite fmap_app, fmap_cons, fmap_take, fmap_drop.
Qed.

(** Taking an element back out of the place it was inserted at. *)
Lemma delete_inserted {A} (rest : list A) (p : nat) (x : A) :
  (p ≤ length rest)%nat →
  (take p rest ++ x :: drop p rest) !! p = Some x ∧
  delete p (take p rest ++ x :: drop p rest) = rest.
Proof.
  intros Hp.
  assert (length (take p rest) = p) as Hlen by (rewrite length_take; lia).
  split.
  - rewrite lookup_app_r by lia. by rewrite Hlen, Nat.sub_diag.
  - rewrite delete_take_drop.
    rewrite take_app_length' by done.
    rewrite (cons_middle x), app_assoc.
    rewrite drop_app_length'; [apply take_drop|].
    rewrite length_app. simpl. lia.
Qed.

(** X10: with pairwise distinct identifiers, dragging the action at index
    [i] onto the action at index [j] puts it at index [j]; the other
    actions keep the order they had among themselves. *)
Theorem handleDragEnd_places items i j a b :
  NoDup (ActionButton.id <$> items) →
  items !! i = Some a →
  items !! j = Some b →
  let result :=
    handleDragEnd
      (DragEndEvent.mk (ActionButton.id a) (Some (ActionButton.id b)))
      items in
  result !! j = Some (Some a) ∧
  delete j result = Some <$> delete i items.
Proof.
  intros Hnd Hi Hj result. subst result. unfold handleDragEnd. simpl.
  pose proof (lookup_lt_Some _ _ _ Hi) as Hilt.
  pose proof (lookup_lt_Some _ _ _ Hj) as Hjlt.
  case_decide as Hne.
  - rewrite (findIndex_NoDup ActionButton.id items i a Hnd Hi).
    unfold String_id. simpl.
    rewrite (findIndex_NoDup ActionButton.id items j b Hnd Hj).
    rewrite (arrayMove_from_index items i a _ Hi).
    assert (landing (length items) (Z.of_nat j) = j) as ->.
    { unfold landing. cbv zeta.
      rewrite !(proj2 (Z.ltb_ge (Z.of_nat j) 0)) by lia. lia. }
    destruct (delete_inserted (delete i items) j a) as [Hat Hdel].
    { rewrite length_delete; [lia|eauto]. }
    split.
    + by rewrite list_lookup_fmap, Hat.
    + by rewrite <- list_fmap_delete, Hdel.
  - injection Hne as Hab.
    assert (i = j) as <-.
    { eapply (NoDup_lookup (ActionButton.id <$> items)); [done| |].
      - by rewrite list_lookup_fmap, Hi.
      - rewrite list_lookup_fmap, Hj. simpl. by rewrite Hab. }
    split.
    + by rewrite list_lookup_fmap, Hi.
    + by rewrite list_fmap_delete.
Qed.

Lemma handleDragEnd_places_witness :
  handleDragEnd (DragEndEvent.mk (js "3") (Some (js "1"))) defaultActions
    !! 0%nat
  = Some (defaultActions !! 2%nat).
Proof.
  destruct defaultActions_numbered as [_ Hnd].
  exact (proj1 (handleDragEnd_places defaultActions 2 0 _ _ Hnd
                  eq_refl eq_refl)).
Defined.

(** X11: a drag that ends outside every target moves the dragged action
    to the end of the list, provided identifiers are pairwise distinct and
    none of them is the text [undefined]; the other actions keep their
    order. *)
Theorem handleDragEnd_no_target items i a :
  NoDup (ActionButton.id <$> items) →
  js "undefined" ∉ ActionButton.id <$> items →
  items !! i = Some a →
  handleDragEnd (DragEndEvent.mk (ActionButton.id a) None) items
  = Some <$> (delete i items ++ [a]).
Proof.
  intros Hnd Hundef Hi. unfold handleDragEnd.
  cbn [DragEndEvent.active DragEndEvent.over String_id default].
  pose proof (lookup_lt_Some _ _ _ Hi) as Hilt.
  rewrite decide_True by done.
  rewrite (findIndex_NoDup ActionButton.id items i a Hnd Hi).
  rewrite findIndex_absent.
  2:{ apply Forall_forall. intros x Hx Hid. apply Hundef.
      apply list_elem_of_fmap. exists x. by rewrite Hid. }
  rewrite (arrayMove_from_index items i a _ Hi).
  assert (landing (length items) (-1) = length (delete i items)) as ->.
  { rewrite length_delete by eauto. unfold landing. cbv zeta.
    change (-1 <? 0) with true. cbv iota.
    rewrite (proj2 (Z.ltb_ge (Z.of_nat (length items) + -1) 0)) by lia. lia. }
  by rewrite take_ge, drop_ge by lia.
Qed.

Lemma handleDragEnd_no_target_witness :
  handleDragEnd (DragEndEvent.mk (ActionButton.id sampleAction) None)
    defaultActions
  = Some <$> (delete 0%nat defaultActions ++ [sampleAction]).
Proof.
  destruct defaultActions_numbered as [_ Hnd].
  refine (handleDragEnd_no_target defaultActions 0 sampleAction Hnd _ eq_refl).
  by apply (bool_decide_unpack _).
Defined.

(** ** One request per control, and a transcript in turns *)

Lemma run_frames {X} (part : Store → X) p now st :
  frames part p →
  part (run p now st).1.1 = part st ∧
  ∀ t, (run p now st).2 = Awaiting t → ∀ reply, frames part (resume t reply).
Proof.
  revert st. induction p as [| |f k IH|k IH|m k IH|l e k IH|? ? k IH|? k IH];
    intros st Hp; simpl in *.
  - done.
  - done.
  - destruct Hp as [Hf Hk]. destruct (IH (f st) Hk) as [-> ?]. by rewrite Hf.
  - by apply IH.
  - specialize (IH st Hp). by destruct (run k now st) as [[? ?] ?].
  - specialize (IH st Hp). by destruct (run k now st) as [[? ?] ?].
  - split; [done|]. intros t [= <-] reply. apply Hp.
  - split; [done|]. intros t [= <-] reply. apply Hp.
Qed.

Lemma tasksOf_app o l1 l2 :
  tasksOf o (l1 ++ l2) = (tasksOf o l1 + tasksOf o l2)%nat.
Proof. unfold tasksOf. by rewrite filter_app, length_app. Qed.

Lemma tasksOf_singleton o o' t :
  tasksOf o [(o', t)] = if decide (o' = o) then 1%nat else 0%nat.
Proof.
  unfold tasksOf. rewrite filter_cons, filter_nil. simpl.
  by destruct (decide (o' = o)).
Qed.

Lemma tasksOf_delete o l i o' t :
  l !! i = Some (o', t) →
  tasksOf o l
  = (tasksOf o (delete i l) + if decide (o' = o) then 1 else 0)%nat.
Proof.
  intros Hi. rewrite delete_take_drop.
  rewrite <- (take_drop_middle l i _ Hi) at 1.
  rewrite (cons_middle (o', t)), !tasksOf_app, tasksOf_singleton. lia.
Qed.

Lemma requestsInFlight_waiting o w :
  (requestsInFlight o w ≤ waiting o w)%nat.
Proof.
  unfold requestsInFlight, waiting, tasksOf.
  induction (tasks w) as [|ot l IH]; [done|].
  rewrite !filter_cons.
  destruct (decide (ot.1 = o ∧ onFetch ot.2 = true)) as [[Ho _]|Hno].
  - rewrite decide_True by done. simpl. lia.
  - destruct (decide (ot.1 = o)); simpl; lia.
Qed.

Lemma turn_store o p now st l done :
  store (turn o p now st l done) = (run p now st).1.1.
Proof. unfold turn. by destruct (run p now st) as [[? ?] ?]. Qed.

Lemma turn_tasks o p now st l done :
  tasks (turn o p now st l done)
  = match (run p now st).2 with
    | Awaiting t => l ++ [(o, t)]
    | _ => l
    end.
Proof. unfold turn. by destruct (run p now st) as [[? ?] []]. Qed.

Lemma step_started toLowerCase w now e o p :
  started toLowerCase (store w) e = Some (o, p) →
  step toLowerCase w now e = turn o p now (store w) (tasks w) (effects w).
Proof. destruct e; simpl; intros [= <- <-]; done. Qed.

Section BracketInvariant.

Context {X : Type}.
Variable toLowerCase : jsstring → jsstring.
Variable part : Store → X.
Variable closes : X → X → Prop.
Variable owner : origin.
Variables idle busy : X → Prop.

Hypothesis closes_idle : ∀ x x', busy x → closes x x' → idle x'.

Hypothesis initial_idle : ∀ now, idle (part (store (initialWorld now))).

Hypothesis setters_keep :
  ∀ w f, permitted w (Setters f) → ∀ st, part (f st) = part st.

Hypothesis starts_ok :
  ∀ w e o p,
    permitted w e →
    started toLowerCase (store w) e = Some (o, p) →
    if decide (o = owner)
    then opens part closes idle busy p (store w)
    else frames part p.

Let Inv := bracketInv part closes owner idle busy.
Let kept := bracketKept part closes owner.

(** A turn of a handler that frames the part. *)
Lemma turn_frames o p now w :
  o ≠ owner → frames part p → Inv w →
  Inv (turn o p now (store w) (tasks w) (effects w)).
Proof.
  intros Ho Hp [Hcount Hkept].
  destruct (run_frames part p now (store w) Hp) as [Hpart Hnext].
  unfold Inv, bracketInv, waiting.
  rewrite turn_store, turn_tasks, Hpart.
  destruct ((run p now (store w)).2) as [| |t] eqn:Hout; [done..|].
  rewrite tasksOf_app, tasksOf_singleton, decide_False, Nat.add_0_r by done.
  split; [done|]. apply Forall_app. split; [done|].
  apply Forall_singleton. intros reply. simpl.
  rewrite decide_False by done. by apply Hnext.
Qed.

(** A turn of the owner's handler resumed while it is the one waiting. *)
Lemma turn_resumed p now st l done :
  bracketed part closes p →
  tasksOf owner l = 0%nat → busy (part st) → Forall kept l →
  Inv (turn owner p now st l done).
Proof.
  intros Hp Hnone Hbusy Hkept. destruct Hp as [p Hhold Hnext Hclose Hcatch].
  unfold Inv, bracketInv, waiting. rewrite turn_store, turn_tasks.
  specialize (Hhold now st). specialize (Hnext now st).
  specialize (Hclose now st). specialize (Hcatch now st).
  destruct ((run p now st).2) as [|e|t] eqn:Hout.
  - split; [|done]. left. split; [done|]. by eapply closes_idle; eauto.
  - by destruct (Hcatch e).
  - rewrite tasksOf_app, tasksOf_singleton, decide_True, Hnone by done.
    split.
    + right. split; [done|]. by rewrite (Hhold t).
    + apply Forall_app. split; [done|]. apply Forall_singleton.
      intros reply. simpl. rewrite decide_True by done. by apply Hnext.
Qed.

(** A turn of the owner's handler started by an input. *)
Lemma turn_started p now w :
  opens part closes idle busy p (store w) → Inv w →
  Inv (turn owner p now (store w) (tasks w) (effects w)).
Proof.
  intros Hopens [Hcount Hkept]. specialize (Hopens now).
  unfold Inv, bracketInv, waiting. rewrite turn_store, turn_tasks.
  destruct ((run p now (store w)).2) as [|e|t] eqn:Hout.
  - by rewrite Hopens.
  - by rewrite Hopens.
  - destruct Hopens as (Hfree & Hbusy & Hnext).
    destruct Hcount as [[Hnone Hidle]|[_ Hb]]; [|by destruct Hfree].
    unfold waiting in Hnone.
    rewrite tasksOf_app, tasksOf_singleton, decide_True, Hnone by done.
    split.
    + right. split; [done|]. by apply Hbusy.
    + apply Forall_app. split; [done|]. apply Forall_singleton.
      intros reply. simpl. rewrite decide_True by done. by apply Hnext.
Qed.

Lemma bracket_step w now e :
  Inv w → permitted w e → Inv (step toLowerCase w now e).
Proof.
  intros HInv Hperm.
  destruct (started toLowerCase (store w) e) as [[o p]|] eqn:Hstart.
  - rewrite (step_started _ _ _ _ _ _ Hstart).
    pose proof (starts_ok w e o p Hperm Hstart) as Hp.
    destruct (decide (o = owner)) as [->|Ho].
    + by apply turn_started.
    + by apply turn_frames.
  - destruct e as [| | |f|i reply]; try discriminate Hstart; simpl.
    + destruct HInv as [Hcount Hkept]. split; [|done].
      unfold waiting. simpl. by rewrite (setters_keep w f Hperm).
    + destruct (tasks w !! i) as [[o t]|] eqn:Hi; [|done].
      destruct HInv as [Hcount Hkept].
      pose proof (tasksOf_delete owner _ _ _ _ Hi) as Hdel.
      pose proof (Forall_lookup_1 _ _ _ _ Hkept Hi reply) as Hshape.
      simpl in Hshape.
      assert (Forall kept (delete i (tasks w))) as Hrest
        by (by apply Forall_delete).
      unfold waiting in Hcount.
      destruct (decide (o = owner)) as [->|Ho]; simpl in Hdel.
      * apply turn_resumed; [done| | |done].
        -- destruct Hcount as [[Hc _]|[Hc _]]; lia.
        -- destruct Hcount as [[Hc _]|[_ Hb]]; [lia|done].
      * apply (turn_frames o (resume t reply) now
                 (mkWorld (store w) (delete i (tasks w)) (effects w)));
          [done..|].
        split; [|done]. unfold waiting. simpl.
        by rewrite Hdel, Nat.add_0_r in Hcount.
Qed.

Lemma bracket_reachable w : reachableUI toLowerCase w → Inv w.
Proof.
  induction 1 as [now|w now e _ IH Hperm].
  - split; [|constructor]. left. split; [done|]. apply initial_idle.
  - by apply bracket_step.
Qed.

End BracketInvariant.

(** *** What each handler writes *)

(** Walks a handler's tree, leaving the writes to the hypotheses. *)
Ltac walk_frames :=
  cbn;
  repeat match goal with
    | |- True => exact I
    | |- _ ∧ _ => split
    | |- ∀ _ : _ + _, _ => intros [?|?]; cbn
    | |- ∀ _, _ => intro; cbn
    | |- context [if ?b then _ else _] => destruct b; cbn
    end;
  auto.

Lemma handleSendMessage_frames {X} (part : Store → X) s :
  (∀ f st, part (withHome (update_messages f) st) = part st) →
  (∀ v st, part (withHome (set_inputMessage v) st) = part st) →
  (∀ v st, part (withHome (set_isChatProcessing v) st) = part st) →
  frames part (handleSendMessage s).
Proof.
  intros Hmessages Hinput Hflag. unfold handleSendMessage.
  destruct (blank _ || disconnected _ || Home.isChatProcessing _); [done|].
  destruct (JS.truthy _); walk_frames.
Qed.

Lemma handleLLMConnect_frames {X} (part : Store → X) config :
  (∀ v st, part (withHome (set_isConnecting v) st) = part st) →
  (∀ v st, part (withHome (set_llmConfig v) st) = part st) →
  frames part (handleLLMConnect config).
Proof.
  intros Hconnecting Hconfig. unfold handleLLMConnect.
  destruct (decide _); walk_frames.
Qed.

Lemma handleConnect_frames {X} (part : Store → X) m :
  (∀ v st, part (withModal (set_error v) st) = part st) →
  (∀ v st, part (withHome (set_isConnecting v) st) = part st) →
  (∀ v st, part (withHome (set_llmConfig v) st) = part st) →
  frames part (handleConnect m).
Proof.
  intros Herror Hconnecting Hconfig. unfold handleConnect, handleLLMConnect.
  destruct (bool_decide _ && blank _);
    [|destruct (bool_decide _ && (blank _ || blank _))];
    walk_frames.
Qed.

Lemma handleActionClick_frames {X} (part : Store → X) toLowerCase s action :
  (∀ v st, part (withHome (set_isProcessing v) st) = part st) →
  (∀ v st, part (withHome (set_editorContent v) st) = part st) →
  frames part (handleActionClick toLowerCase s action).
Proof.
  intros Hprocessing Hcontent. unfold handleActionClick.
  destruct (disconnected _); [done|].
  destruct (blank _); [done|]. walk_frames.
Qed.

(** The last stretch of a handler: no [await] is left, it returns, and the
    part has changed as [closes] says. *)
Ltac last_stretch :=
  apply bracketed_intro;
  [ intros ? ? ? Hrun; cbn in Hrun; discriminate Hrun
  | intros ? ? ? ? Hrun; cbn in Hrun; discriminate Hrun
  | intros ? ? _; cbn; unfold lowers, chatCloses; cbn;
    first [ reflexivity
          | split; [reflexivity | eexists; split; [|reflexivity]; reflexivity] ]
  | intros ? ? ? Hrun; cbn in Hrun; discriminate Hrun ].

(** A stretch that ends at [await response.json()], the store untouched;
    what is left to show is the handler resumed with the body. *)
Ltac json_stretch :=
  apply bracketed_intro;
  [ intros ? ? ? _; reflexivity
  | intros ? ? ? ? Hrun; cbn in Hrun; injection Hrun as <-; cbn [resume]
  | intros ? ? Hrun; cbn in Hrun; discriminate Hrun
  | intros ? ? ? Hrun; cbn in Hrun; discriminate Hrun ].

Lemma handleActionClick_opens toLowerCase st action :
  actionButtonDisabled (home st) = false →
  opens (λ st, Home.isProcessing (home st)) lowers
    (λ x, x = false) (λ x, x = true)
    (handleActionClick toLowerCase (home st) action) st.
Proof.
  unfold actionButtonDisabled. intros [Hidle Hconn]%orb_false_iff now.
  unfold handleActionClick. rewrite Hconn.
  destruct (blank (Home.editorContent (home st))); [reflexivity|]. cbn.
  split; [by rewrite Hidle|]. split; [reflexivity|].
  intros [e|response]; cbn; [last_stretch|].
  json_stretch.
  destruct (Response.json response) as [e|data]; cbn; [last_stretch|].
  destruct (Response.ok response); cbn; last_stretch.
Qed.

Lemma handleConnect_opens st :
  connectButtonDisabled (home st) = false →
  opens (λ st, Home.isConnecting (home st)) lowers
    (λ x, x = false) (λ x, x = true) (handleConnect (modal st)) st.
Proof.
  unfold connectButtonDisabled. intros Hidle now.
  unfold handleConnect, handleLLMConnect.
  destruct (bool_decide _ && blank _); [reflexivity|].
  destruct (bool_decide _ && (blank _ || blank _)); [reflexivity|].
  cbn. split; [by rewrite Hidle|]. split; [reflexivity|].
  intros [e|response]; cbn; [last_stretch|].
  json_stretch.
  destruct (Response.json response) as [e|data]; cbn; [last_stretch|].
  destruct (Data.success data); cbn; last_stretch.
Qed.

Lemma handleSendMessage_opens st :
  opens chatPart chatCloses chatIdle chatBusy
    (handleSendMessage (home st)) st.
Proof.
  intros now. unfold handleSendMessage.
  destruct (blank _ || disconnected _ || Home.isChatProcessing _) eqn:Hguard;
    [reflexivity|].
  apply orb_false_iff in Hguard as [_ Hflag]. cbn.
  split; [|split].
  - intros [Hup _]. cbn in Hup. congruence.
  - intros [_ Hanswered]. split; [reflexivity|]. cbn. by constructor.
  - intros [e|response]; cbn; [last_stretch|].
    destruct (Response.ok response); cbn; [|last_stretch].
    json_stretch.
    destruct (Response.json response) as [e|data]; cbn; last_stretch.
Qed.

Lemma busyWorld_reachable : reachableUI (λ s, s) busyWorld.
Proof.
  unfold busyWorld. cbv zeta.
  repeat (apply reachableUI_step;
          [|first [exact I | by vm_compute | by intros st; split_and!]]).
  apply reachableUI_initial.
Qed.

Example busyWorld_waiting :
  waiting LLMConnect busyWorld = 0%nat ∧
  waiting ActionClick busyWorld = 1%nat ∧
  waiting SendMessage busyWorld = 1%nat ∧
  LLMConfig.type (Home.llmConfig (home (store busyWorld))) = Some llama.
Proof. by vm_compute. Qed.

Section GatedPage.

Variable toLowerCase : jsstring → jsstring.

(** X12: on the page as rendered, where an action button only fires while
    enabled, at most one action request is awaiting its reply, and the
    [isProcessing] flag, which disables the buttons, is up exactly while a
    click is waiting for its reply or for the reply's body. *)
Theorem actions_serialized w :
  reachableUI toLowerCase w →
  (requestsInFlight ActionClick w ≤ 1)%nat ∧
  (Home.isProcessing (home (store w)) = true ↔
   waiting ActionClick w = 1%nat) ∧
  (Home.isProcessing (home (store w)) = false ↔
   waiting ActionClick w = 0%nat).
Proof.
  intros Hw.
  pose proof (requestsInFlight_waiting ActionClick w) as Hle.
  apply (bracket_reachable toLowerCase
           (λ st, Home.isProcessing (home st)) lowers ActionClick
           (λ x, x = false) (λ x, x = true)) in Hw.
  - destruct Hw as [[[Hn Hp]|[Hn Hp]] _]; simpl in Hp; rewrite Hp, Hn in *;
      split_and!; (lia || (split; congruence)).
  - by intros x x' _ ->.
  - done.
  - intros w' f Hperm st. apply Hperm.
  - intros w' [|action| |f|i reply] o p Hperm [= <- <-].
    + rewrite decide_False by done. by apply handleSendMessage_frames.
    + rewrite decide_True by done. by apply handleActionClick_opens.
    + rewrite decide_False by done. by apply handleConnect_frames.
Qed.

(** X13: likewise for the dialog, whose Connect button only fires while
    enabled: at most one connection request is awaiting its reply, and
    [isConnecting] is up exactly while a connection attempt is waiting. *)
Theorem connects_serialized w :
  reachableUI toLowerCase w →
  (requestsInFlight LLMConnect w ≤ 1)%nat ∧
  (Home.isConnecting (home (store w)) = true ↔
   waiting LLMConnect w = 1%nat) ∧
  (Home.isConnecting (home (store w)) = false ↔
   waiting LLMConnect w = 0%nat).
Proof.
  intros Hw.
  pose proof (requestsInFlight_waiting LLMConnect w) as Hle.
  apply (bracket_reachable toLowerCase
           (λ st, Home.isConnecting (home st)) lowers LLMConnect
           (λ x, x = false) (λ x, x = true)) in Hw.
  - destruct Hw as [[[Hn Hp]|[Hn Hp]] _]; simpl in Hp; rewrite Hp, Hn in *;
      split_and!; (lia || (split; congruence)).
  - by intros x x' _ ->.
  - done.
  - intros w' f Hperm st. apply Hperm.
  - intros w' [|action| |f|i reply] o p Hperm [= <- <-].
    + rewrite decide_False by done. by apply handleSendMessage_frames.
    + rewrite decide_False by done. by apply handleActionClick_frames.
    + rewrite decide_True by done. by apply handleConnect_opens.
Qed.

(** X14: the chat transcript is kept in turns.  In every state the page
    reaches, either no send is waiting, the processing flag is down and
    the messages are the greeting followed by user messages each answered
    by exactly one assistant message; or one send is waiting, the flag is
    up and the last message is the user's, still unanswered. *)
Theorem transcript_in_turns w :
  reachableUI toLowerCase w →
  waiting SendMessage w = 0%nat ∧
  Home.isChatProcessing (home (store w)) = false ∧
  answered (Home.messages (home (store w)))
  ∨
  waiting SendMessage w = 1%nat ∧
  Home.isChatProcessing (home (store w)) = true ∧
  asked (Home.messages (home (store w))).
Proof.
  intros Hw.
  apply (bracket_reachable toLowerCase chatPart chatCloses SendMessage
           chatIdle chatBusy) in Hw.
  - destruct Hw as [[[Hn [??]]|[Hn [??]]] _]; [by left|by right].
  - intros [m f] [m' f'] [_ Hasked] [Hdown (a & Ha & Hm)].
    simpl in *. subst. split; [done|]. by constructor.
  - intros now. split; [done|]. by constructor.
  - intros w' f Hperm st. unfold chatPart.
    destruct (Hperm st) as (-> & -> & _). done.
  - intros w' [|action| |f|i reply] o p Hperm [= <- <-].
    + rewrite decide_True by done. apply handleSendMessage_opens.
    + rewrite decide_False by done. by apply handleActionClick_frames.
    + rewrite decide_False by done. by apply handleConnect_frames.
Qed.

End GatedPage.

Lemma actions_serialized_witness :
  (requestsInFlight ActionClick busyWorld ≤ 1)%nat ∧
  Home.isProcessing (home (store busyWorld)) = true.
Proof.
  destruct (actions_serialized (λ s, s) busyWorld busyWorld_reachable)
    as (Hone & Hup & _).
  split; [exact Hone|]. apply Hup. reflexivity.
Defined.

Lemma connects_serialized_witness :
  (requestsInFlight LLMConnect busyWorld ≤ 1)%nat ∧
  Home.isConnecting (home (store busyWorld)) = false.
Proof.
  destruct (connects_serialized (λ s, s) busyWorld busyWorld_reachable)
    as (Hone & _ & Hdown).
  split; [exact Hone|]. apply Hdown. reflexivity.
Defined.

Lemma transcript_in_turns_witness :
  asked (Home.messages (home (store busyWorld))).
Proof.
  destruct (transcript_in_turns (λ s, s) busyWorld busyWorld_reachable)
    as [(Hnone & _)|(_ & _ & Hasked)].
  - discriminate Hnone.
  - exact Hasked.
Defined.

(** ** What connecting enables *)

(** X15: a click on an enabled action button never meets the handler's
    own connection check.  With a blank editor it raises the alert asking
    for text and changes nothing; otherwise it issues the request and
    raises [isProcessing], which disables every action button until the
    handler is done. *)
Theorem enabled_actionButton_click toLowerCase action now st :
  actionButtonDisabled (home st) = false →
  (blank (Home.editorContent (home st)) = true ∧
   run (handleActionClick toLowerCase (home st) action) now st
   = (st, [Alerted (js "Please enter some text in the editor first")],
      Returned))
  ∨
  (blank (Home.editorContent (home st)) = false ∧
   ∃ t,
     run (handleActionClick toLowerCase (home st) action) now st
     = (withHome (set_isProcessing true) st,
        [actionRequest toLowerCase (home st) action], Awaiting t) ∧
     actionButtonDisabled (home (withHome (set_isProcessing true) st))
     = true).
Proof.
  unfold actionButtonDisabled. intros [_ Hconn]%orb_false_iff.
  unfold handleActionClick. rewrite Hconn.
  destruct (blank (Home.editorContent (home st))); [by left|].
  right. split; [done|]. eexists. split; reflexivity.
Qed.

Lemma enabled_actionButton_click_witness :
  ∃ t,
    run (handleActionClick (λ s, s) (home readyStore) sampleAction)
      0 readyStore
    = (withHome (set_isProcessing true) readyStore,
       [actionRequest (λ s, s) (home readyStore) sampleAction], Awaiting t).
Proof.
  destruct (enabled_actionButton_click (λ s, s) sampleAction 0 readyStore
              eq_refl) as [[Hblank _]|(_ & t & Hrun & _)].
  - discriminate Hblank.
  - by exists t.
Defined.

(** X16: a connection attempt from the filled-in dialog decides what the
    page enables.  After a reply that reports success the chat input and
    the action buttons are disabled only by their own progress flags, and
    the Send button only by a blank input or a pending send; after any
    other reply the chat input, the Send button and every action button
    are disabled, whatever was connected before. *)
Theorem handleConnect_gates m now st :
  filledIn m →
  ∃ t,
    (run (handleConnect m) now st).2 = Awaiting t ∧
    ∀ reply now1 now2 st',
      let final := home (complete (resume t reply) reply now1 [now2] st').1.1 in
      if connectSucceeded reply
      then
        chatInputDisabled final = Home.isChatProcessing (home st') ∧
        actionButtonDisabled final = Home.isProcessing (home st') ∧
        sendButtonDisabled final
        = blank (Home.inputMessage (home st'))
          || Home.isChatProcessing (home st')
      else
        chatInputDisabled final = true ∧
        actionButtonDisabled final = true ∧
        sendButtonDisabled final = true.
Proof.
  unfold handleConnect, filledIn, chatInputDisabled, actionButtonDisabled,
    sendButtonDisabled.
  intros Hfilled. destruct (LLMConnectionModal.selectedLLM m).
  - rewrite Hfilled. simpl. eexists. split; [reflexivity|].
    intros [e|[ok [e|[text detail [] message]]]] now1 now2 st'; simpl;
      by rewrite ?orb_true_r, ?orb_false_r.
  - destruct Hfilled as [-> ->]. simpl. eexists. split; [reflexivity|].
    intros [e|[ok [e|[text detail [] message]]]] now1 now2 st'; simpl;
      by rewrite ?orb_true_r, ?orb_false_r.
Qed.

Lemma handleConnect_gates_witness :
  ∃ t,
    (run (handleConnect llamaDialog) 0 freshStore).2 = Awaiting t ∧
    actionButtonDisabled
      (home (complete (resume t (inr connectedReply)) (inr connectedReply)
               1 [2] freshStore).1.1)
    = false.
Proof.
  destruct (handleConnect_gates llamaDialog 0 freshStore)
    as (t & Hrun & Hgates).
  { split; reflexivity. }
  exists t. split; [exact Hrun|].
  exact (proj1 (proj2 (Hgates (inr connectedReply) 1 2 freshStore))).
Defined.
